(** * whisper-dictation: the recording session, its gesture listeners and
    the capture / transcribe / type pipeline

    A shallow embedding of [whisper-dictation.py].

    - Python objects become records, methods become functions on them.
    - The one mutable world the classes share ([RecordingManager], the
      [Recorder] it drives, the threads and timers they spawn) is the record
      [system]; every observable effect is appended to its [trace].
    - The external collaborators (PyAudio, the whisper model, the pynput
      keyboard controller) are functions of the effect history, so a theorem
      quantified over [collaborators] holds for every behaviour they can show,
      failures included.
    - Threads are interleaved by an explicit schedule ([action] lists).
    - [time.time()] readings and audio samples are rationals.  A sample is
      an int16 divided by 2^15, which binary32 represents exactly; the
      listeners only compare a difference of two clock readings with 0.5. *)

From Stdlib Require Import String Ascii ZArith QArith Bool Arith Lia List.
From Stdlib Require Import Strings.Byte.
Import ListNotations.
Local Close Scope Q_scope.
Local Open Scope string_scope.

(** ** Exceptions and results *)

(** A raised [Exception] with its message ([str(e)]). *)
Inductive exn : Type :=
| Exception (msg : string).

Definition str (e : exn) : string :=
  match e with Exception msg => msg end.

Inductive result (A : Type) : Type :=
| Ok (a : A)
| Raise (e : exn).
Arguments Ok {A} a.
Arguments Raise {A} e.

(** ** Audio buffers: [np.frombuffer(b''.join(frames), dtype=np.int16)]
       and [astype(np.float32) / 32768.0] *)

Module Audio.

Definition bytes := list byte.

(** [stream.read(frames_per_buffer)] of a mono paInt16 stream delivers
    [frames_per_buffer * sample_width] bytes. *)
Definition frames_per_buffer : nat := 1024.
Definition sample_width : nat := 2.
Definition chunk_size : nat := frames_per_buffer * sample_width.

(** [b''.join(frames)] *)
Definition join (frames : list bytes) : bytes := concat frames.

(** One little-endian two's-complement int16. *)
Definition int16_of_le (lo hi : byte) : Z :=
  let u := (Z.of_N (Byte.to_N lo) + 256 * Z.of_N (Byte.to_N hi))%Z in
  if (u <? 32768)%Z then u else (u - 65536)%Z.

Fixpoint int16_samples (b : bytes) : list Z :=
  match b with
  | lo :: hi :: rest => int16_of_le lo hi :: int16_samples rest
  | _ => []
  end.

(** [np.frombuffer(b, dtype=np.int16)]: raises [ValueError] when the buffer
    size is not a multiple of the element size. *)
Definition frombuffer_int16 (b : bytes) : result (list Z) :=
  if Nat.even (length b) then Ok (int16_samples b)
  else Raise (Exception "buffer size must be a multiple of element size").

(** [x.astype(np.float32) / 32768.0] on one sample. *)
Definition to_float32 (sample : Z) : Q := (inject_Z sample / 32768)%Q.

(** Lines 103-104 of [_record_impl]. *)
Definition audio_data_fp32 (frames : list bytes) : result (list Q) :=
  match frombuffer_int16 (join frames) with
  | Ok audio_data => Ok (map to_float32 audio_data)
  | Raise e => Raise e
  end.

End Audio.

(** ** Strings *)

(** [str.isspace] on the code points below 256, the characters a [string]
    can hold; Unicode whitespace above 255 is outside this model. *)
Definition isspace (c : ascii) : bool :=
  let n := nat_of_ascii c in
  ((9 <=? n)%nat && (n <=? 13)%nat) || ((28 <=? n)%nat && (n <=? 32)%nat)
  || (n =? 133)%nat || (n =? 160)%nat.

(** [str.lstrip()] *)
Fixpoint lstrip (s : string) : string :=
  match s with
  | String c rest => if isspace c then lstrip rest else s
  | EmptyString => EmptyString
  end.

Definition newline : string := String (ascii_of_nat 10) EmptyString.

(** ** Effects *)

Inductive timer_status : Type :=
| Armed
| Cancelled
| Fired.

Inductive event : Type :=
| EvPrint (line : string)
| EvSetManagerRecording (b : bool)
| EvSetRecorderRecording (b : bool)
| EvThreadStart (tid : nat)
| EvTimerStart (id : nat) (interval : Q)
| EvTimerCancel (id : nat)
| EvStreamOpen
| EvStreamRead (data : Audio.bytes)
| EvStreamClose
| EvTranscribe (audio : list Q) (language : option string)
| EvType (element : ascii)
| EvSleep (seconds : Q)
| EvUncaught (tid : nat) (e : exn).

(** The external collaborators.  Each answer may depend on everything that
    happened before it. *)
Record collaborators : Type := {
  (* p = pyaudio.PyAudio(); stream = p.open(...) *)
  pa_open : list event -> option exn;
  (* stream.read(frames_per_buffer) *)
  stream_read : list event -> result Audio.bytes;
  (* stream.stop_stream(); stream.close(); p.terminate() *)
  stream_close : list event -> option exn;
  (* self.model.transcribe(audio_data, language=language)["text"] *)
  model_transcribe : list event -> list Q -> option string -> result string;
  (* self.pykeyboard.type(element) *)
  kb_type : list event -> ascii -> option exn
}.

(** The program counter of one thread running [Recorder._record_impl]. *)
Inductive thread : Type :=
| Spawned (language : option string)    (* started, body not yet entered *)
| Opening (language : option string)    (* after [self.recording = True] *)
| Capturing (language : option string) (frames : list Audio.bytes)
                                        (* at [while self.recording] *)
| Finished
| Crashed (e : exn).

Record system : Type := {
  language : option string;          (* RecordingManager.language *)
  max_time : option Q;               (* RecordingManager.max_time *)
  manager_recording : bool;          (* RecordingManager.recording *)
  manager_timer : option nat;        (* RecordingManager.timer *)
  recorder_recording : bool;         (* Recorder.recording *)
  threads : list thread;
  timers : list timer_status;
  trace : list event
}.

(** [RecordingManager(recorder, language, max_time)] over a fresh
    [Recorder(transcriber)]. *)
Definition init (lang : option string) (limit : option Q) : system :=
  {| language := lang; max_time := limit;
     manager_recording := false; manager_timer := None;
     recorder_recording := false;
     threads := []; timers := []; trace := [] |}.

Definition log (evs : list event) (s : system) : system :=
  {| language := language s; max_time := max_time s;
     manager_recording := manager_recording s;
     manager_timer := manager_timer s;
     recorder_recording := recorder_recording s;
     threads := threads s; timers := timers s;
     trace := trace s ++ evs |}.

Definition write_manager_recording (b : bool) (s : system) : system :=
  {| language := language s; max_time := max_time s;
     manager_recording := b;
     manager_timer := manager_timer s;
     recorder_recording := recorder_recording s;
     threads := threads s; timers := timers s;
     trace := trace s ++ [EvSetManagerRecording b] |}.

Definition write_recorder_recording (b : bool) (s : system) : system :=
  {| language := language s; max_time := max_time s;
     manager_recording := manager_recording s;
     manager_timer := manager_timer s;
     recorder_recording := b;
     threads := threads s; timers := timers s;
     trace := trace s ++ [EvSetRecorderRecording b] |}.

Definition with_threads (ths : list thread) (s : system) : system :=
  {| language := language s; max_time := max_time s;
     manager_recording := manager_recording s;
     manager_timer := manager_timer s;
     recorder_recording := recorder_recording s;
     threads := ths; timers := timers s;
     trace := trace s |}.

Definition with_timers (tms : list timer_status) (s : system) : system :=
  {| language := language s; max_time := max_time s;
     manager_recording := manager_recording s;
     manager_timer := manager_timer s;
     recorder_recording := recorder_recording s;
     threads := threads s; timers := tms;
     trace := trace s |}.

Definition with_manager_timer (t : option nat) (s : system) : system :=
  {| language := language s; max_time := max_time s;
     manager_recording := manager_recording s;
     manager_timer := t;
     recorder_recording := recorder_recording s;
     threads := threads s; timers := timers s;
     trace := trace s |}.

Fixpoint update {A : Type} (l : list A) (i : nat) (x : A) : list A :=
  match l, i with
  | [], _ => []
  | _ :: rest, O => x :: rest
  | y :: rest, S j => y :: update rest j x
  end.

Definition set_thread (tid : nat) (th : thread) (s : system) : system :=
  with_threads (update (threads s) tid th) s.

(** An exception that leaves a thread's target: the thread ends and the
    interpreter's hook reports it. *)
Definition crash (tid : nat) (e : exn) (s : system) : system :=
  set_thread tid (Crashed e) (log [EvUncaught tid e] s).

(** ** class SpeechTranscriber *)

Module SpeechTranscriber.

(** [transcribe(self, audio_data, language)]: an exception of the model is
    not handled here. *)
Definition transcribe (c : collaborators) (audio_data : list Q)
    (lang : option string) (s : system) : result string * system :=
  match model_transcribe c (trace s) audio_data lang with
  | Raise e => (Raise e, log [EvTranscribe audio_data lang] s)
  | Ok text =>
      let transcription_text := lstrip text in
      (Ok transcription_text,
       log [EvTranscribe audio_data lang;
            EvPrint ("Transcription: " ++ transcription_text)] s)
  end.

End SpeechTranscriber.

(** ** class Recorder *)

Module Recorder.

(** [start(self, language)]: only creates and starts the thread. *)
Definition start (lang : option string) (s : system) : system :=
  let tid := length (threads s) in
  log [EvThreadStart tid] (with_threads (threads s ++ [Spawned lang]) s).

(** [stop(self)] *)
Definition stop (s : system) : system :=
  write_recorder_recording false s.

(** [time.sleep(0.0025)] *)
Definition typing_delay : Q := (25 # 10000)%Q.

(** The [for element in transcription] loop, up to the first exception. *)
Fixpoint type_elements (c : collaborators) (transcription : string)
    (s : system) : option exn * system :=
  match transcription with
  | EmptyString => (None, s)
  | String element rest =>
      match kb_type c (trace s) element with
      | Some e => (Some e, s)
      | None =>
          type_elements c rest (log [EvType element; EvSleep typing_delay] s)
      end
  end.

(** Lines 108-117: [if transcription: try ... except Exception ... else ...] *)
Definition type_transcription (c : collaborators) (transcription : string)
    (s : system) : system :=
  match transcription with
  | EmptyString => log [EvPrint "No transcription text to type."] s
  | String _ _ =>
      match type_elements c transcription s with
      | (None, s') => log [EvPrint "Typing complete."] s'
      | (Some e, s') =>
          log [EvPrint ("Error typing transcription: " ++ str e)] s'
      end
  end.

(** Lines 99-117: what the thread does once the loop test fails. *)
Definition after_capture (c : collaborators) (tid : nat)
    (lang : option string) (frames : list Audio.bytes) (s : system)
    : system :=
  match stream_close c (trace s) with
  | Some e => crash tid e s
  | None =>
      let s1 := log [EvStreamClose] s in
      match Audio.audio_data_fp32 frames with
      | Raise e => crash tid e s1
      | Ok audio_data_fp32 =>
          match SpeechTranscriber.transcribe c audio_data_fp32 lang s1 with
          | (Raise e, s2) => crash tid e s2
          | (Ok transcription, s2) =>
              set_thread tid Finished (type_transcription c transcription s2)
          end
      end
  end.

(** One scheduling step of thread [tid], which runs
    [_record_impl(self, language)]: the flag write, the stream opening, one
    turn of the [while self.recording] loop, or everything after the loop. *)
Definition _record_impl (c : collaborators) (tid : nat) (s : system)
    : system :=
  match nth_error (threads s) tid with
  | Some (Spawned lang) =>
      set_thread tid (Opening lang) (write_recorder_recording true s)
  | Some (Opening lang) =>
      match pa_open c (trace s) with
      | Some e => crash tid e s
      | None => set_thread tid (Capturing lang []) (log [EvStreamOpen] s)
      end
  | Some (Capturing lang frames) =>
      if recorder_recording s then
        match stream_read c (trace s) with
        | Raise e => crash tid e s
        | Ok data =>
            set_thread tid (Capturing lang (frames ++ [data]))
              (log [EvStreamRead data] s)
        end
      else after_capture c tid lang frames s
  | Some Finished | Some (Crashed _) | None => s
  end.

End Recorder.

(** ** class RecordingManager *)

Module RecordingManager.

(** [self.timer = threading.Timer(self.max_time, self.stop)]
    [self.timer.start()].  [Armed] records that the timer was started and
    not cancelled; whether its thread lives to call [stop()] (it dies with
    [OverflowError] for an interval above [threading.TIMEOUT_MAX]) is not
    part of this record. *)
Definition timer_start (interval : Q) (s : system) : system :=
  let id := length (timers s) in
  log [EvTimerStart id interval]
    (with_manager_timer (Some id) (with_timers (timers s ++ [Armed]) s)).

(** [self.timer.cancel()]: a timer that already fired stays fired. *)
Definition timer_cancel (id : nat) (s : system) : system :=
  log [EvTimerCancel id]
    match nth_error (timers s) id with
    | Some Armed => with_timers (update (timers s) id Cancelled) s
    | _ => s
    end.

Definition start (s : system) : system :=
  if manager_recording s then s
  else
    let s1 := log [EvPrint "Listening..."] s in
    let s2 := write_manager_recording true s1 in
    let s3 := Recorder.start (language s2) s2 in
    match max_time s3 with
    | Some interval => timer_start interval s3
    | None => s3
    end.

Definition stop (s : system) : system :=
  if manager_recording s then
    let s1 := match manager_timer s with
              | Some id => timer_cancel id s
              | None => s
              end in
    let s2 := log [EvPrint "Transcribing..."] s1 in
    let s3 := write_manager_recording false s2 in
    let s4 := Recorder.stop s3 in
    log [EvPrint ("Done." ++ newline)] s4
  else s.

Definition toggle (s : system) : system :=
  if manager_recording s then stop s else start s.

End RecordingManager.

(** ** Scheduling *)

Inductive call : Type :=
| Start
| Stop
| Toggle.

Definition apply_call (f : call) (s : system) : system :=
  match f with
  | Start => RecordingManager.start s
  | Stop => RecordingManager.stop s
  | Toggle => RecordingManager.toggle s
  end.

(** What can happen next: the listener thread calls the manager, a pipeline
    thread takes a step, or a deadline timer runs out. *)
Inductive action : Type :=
| Call (f : call)
| Step (tid : nat)
| TimerFires (id : nat).

(** [threading.Timer.run]: the function is called unless the timer was
    cancelled before.  The expiry and the whole of the [stop()] it calls
    are one step here, as is every call of the listener; in the program
    [stop()] runs statement by statement on the timer's thread, so this
    covers the schedules in which calls do not preempt each other. *)
Definition timer_fires (id : nat) (s : system) : system :=
  match nth_error (timers s) id with
  | Some Armed =>
      RecordingManager.stop (with_timers (update (timers s) id Fired) s)
  | _ => s
  end.

Definition exec (c : collaborators) (a : action) (s : system) : system :=
  match a with
  | Call f => apply_call f s
  | Step tid => Recorder._record_impl c tid s
  | TimerFires id => timer_fires id s
  end.

Definition run (c : collaborators) (schedule : list action) (s : system)
    : system :=
  fold_left (fun st a => exec c a st) schedule s.

(** Threads that are inside the capture loop. *)
Definition capturing (th : thread) : bool :=
  match th with
  | Capturing _ _ => true
  | _ => false
  end.

Definition capture_loops (s : system) : nat :=
  length (filter capturing (threads s)).

Definition is_thread_start (ev : event) : bool :=
  match ev with
  | EvThreadStart _ => true
  | _ => false
  end.

Definition is_typed (ev : event) : bool :=
  match ev with
  | EvType _ => true
  | _ => false
  end.

(** The events a piece of code added to the trace. *)
Definition added (before after : system) : list event :=
  skipn (length (trace before)) (trace after).

(** ** Keys, key events and the manager the listeners drive *)

(** A [keyboard.Key] member by name, or a [keyboard.KeyCode(char=...)]. *)
Inductive pynput_key : Type :=
| Key (name : string)
| KeyCode (char : string).

Definition key_eqb (a b : pynput_key) : bool :=
  match a, b with
  | Key x, Key y => String.eqb x y
  | KeyCode x, KeyCode y => String.eqb x y
  | _, _ => false
  end.

(** What [keyboard.Listener] delivers; a press carries the [time.time()]
    its handler would read. *)
Inductive key_event : Type :=
| Press (k : pynput_key) (current_time : Q)
| Release (k : pynput_key).

(** [current_time - self.last_press_time < 0.5] *)
Definition Qltb (x y : Q) : bool := negb (Qle_bool y x).

Definition double_press_window : Q := (1 # 2)%Q.

Definition quick (current_time last_press_time : Q) : bool :=
  Qltb (current_time - last_press_time)%Q double_press_window.

(** The listeners only use [recording_manager.recording], [start()],
    [stop()] and [toggle()]. *)
Class recording_manager (M : Type) : Type := {
  recording : M -> bool;
  start : M -> M;
  stop : M -> M;
  toggle : M -> M
}.

#[export] Instance system_manager : recording_manager system := {
  recording := manager_recording;
  start := RecordingManager.start;
  stop := RecordingManager.stop;
  toggle := RecordingManager.toggle
}.

(** A manager that also keeps the list of the calls made on it. *)
Record spy (M : Type) : Type := {
  inner : M;
  calls : list call
}.
Arguments inner {M} s.
Arguments calls {M} s.

Definition called {M : Type} (f : call) (g : M -> M) (m : spy M) : spy M :=
  {| inner := g (inner m); calls := calls m ++ [f] |}.

#[export] Instance spy_manager (M : Type) `{recording_manager M}
  : recording_manager (spy M) := {
  recording := fun m => recording (inner m);
  start := called Start start;
  stop := called Stop stop;
  toggle := called Toggle toggle
}.

(** ** class GlobalKeyListener *)

Module GlobalKeyListener.

Record t : Type := {
  key1 : pynput_key;
  key2 : pynput_key;
  key1_pressed : bool;
  key2_pressed : bool
}.

(** [__init__], after [parse_key_combination] gave the two keys. *)
Definition new (k1 k2 : pynput_key) : t :=
  {| key1 := k1; key2 := k2; key1_pressed := false; key2_pressed := false |}.

Section Handlers.
Context {M : Type} `{recording_manager M}.

Definition on_key_press (self : t) (k : pynput_key) (m : M) : t * M :=
  let self1 :=
    if key_eqb k (key1 self) then
      {| key1 := key1 self; key2 := key2 self;
         key1_pressed := true; key2_pressed := key2_pressed self |}
    else if key_eqb k (key2 self) then
      {| key1 := key1 self; key2 := key2 self;
         key1_pressed := key1_pressed self; key2_pressed := true |}
    else self in
  if key1_pressed self1 && key2_pressed self1
  then (self1, toggle m)
  else (self1, m).

Definition on_key_release (self : t) (k : pynput_key) (m : M) : t * M :=
  if key_eqb k (key1 self) then
    ({| key1 := key1 self; key2 := key2 self;
        key1_pressed := false; key2_pressed := key2_pressed self |}, m)
  else if key_eqb k (key2 self) then
    ({| key1 := key1 self; key2 := key2 self;
        key1_pressed := key1_pressed self; key2_pressed := false |}, m)
  else (self, m).

Definition handle (st : t * M) (ev : key_event) : t * M :=
  match ev with
  | Press k _ => on_key_press (fst st) k (snd st)
  | Release k => on_key_release (fst st) k (snd st)
  end.

Definition listen (events : list key_event) (st : t * M) : t * M :=
  fold_left handle events st.

End Handlers.

End GlobalKeyListener.

(** ** class DoubleCommandKeyListener *)

Module DoubleCommandKeyListener.

Record t : Type := {
  key : pynput_key;
  last_press_time : Q
}.

Definition new : t := {| key := Key "cmd_r"; last_press_time := 0%Q |}.

Section Handlers.
Context {M : Type} `{recording_manager M}.

Definition on_key_press (self : t) (k : pynput_key) (current_time : Q) (m : M)
    : t * M :=
  if key_eqb k (key self) then
    let m1 :=
      if negb (recording m) && quick current_time (last_press_time self)
      then start m
      else if recording m then stop m
      else m in
    ({| key := key self; last_press_time := current_time |}, m1)
  else (self, m).

Definition on_key_release (self : t) (k : pynput_key) (m : M) : t * M :=
  (self, m).

Definition handle (st : t * M) (ev : key_event) : t * M :=
  match ev with
  | Press k now => on_key_press (fst st) k now (snd st)
  | Release k => on_key_release (fst st) k (snd st)
  end.

Definition listen (events : list key_event) (st : t * M) : t * M :=
  fold_left handle events st.

End Handlers.

End DoubleCommandKeyListener.

(** ** class PushToTalkListener *)

Module PushToTalkListener.

Record t : Type := {
  key : pynput_key;
  active : bool;
  last_press_time : Q
}.

Definition new : t :=
  {| key := Key "cmd_l"; active := false; last_press_time := 0%Q |}.

(** The state a handler leaves: the listener, the manager, and the
    frequencies of the [play_tone] threads started so far. *)
Record outcome (M : Type) : Type := {
  listener : t;
  manager : M;
  tones : list Z
}.
Arguments listener {M} o.
Arguments manager {M} o.
Arguments tones {M} o.

Section Handlers.
Context {M : Type} `{recording_manager M}.

Definition on_key_press (st : outcome M) (k : pynput_key) (current_time : Q)
    : outcome M :=
  let self := listener st in
  if key_eqb k (key self) then
    if negb (active self) && quick current_time (last_press_time self) then
      {| listener := {| key := key self; active := true;
                        last_press_time := current_time |};
         manager := start (manager st);
         tones := tones st ++ [300%Z] |}
    else
      {| listener := {| key := key self; active := active self;
                        last_press_time := current_time |};
         manager := manager st;
         tones := tones st |}
  else st.

Definition on_key_release (st : outcome M) (k : pynput_key) : outcome M :=
  let self := listener st in
  if key_eqb k (key self) && active self then
    {| listener := {| key := key self; active := false;
                      last_press_time := last_press_time self |};
       manager := stop (manager st);
       tones := tones st ++ [600%Z] |}
  else st.

Definition handle (st : outcome M) (ev : key_event) : outcome M :=
  match ev with
  | Press k now => on_key_press st k now
  | Release k => on_key_release st k
  end.

Definition listen (events : list key_event) (st : outcome M) : outcome M :=
  fold_left handle events st.

End Handlers.

End PushToTalkListener.

(** ** The transition rules as the specification words them *)

Module Spec.

(** [start] is a no-op when already active. *)
Definition start_rule (active : bool) : bool :=
  if active then active else true.

(** [stop] is a no-op when idle. *)
Definition stop_rule (active : bool) : bool :=
  if active then false else active.

(** [toggle] is [stop] when active and [start] when idle. *)
Definition toggle_rule (active : bool) : bool :=
  if active then stop_rule active else start_rule active.

Definition transition (active : bool) (f : call) : bool :=
  match f with
  | Start => start_rule active
  | Stop => stop_rule active
  | Toggle => toggle_rule active
  end.

Definition fold (calls : list call) (active : bool) : bool :=
  fold_left transition calls active.

End Spec.

(** ** Runs and inputs used by the properties *)

(** A sequence of calls on the manager, in order. *)
Definition run_calls (fs : list call) (s : system) : system :=
  fold_left (fun st f => apply_call f st) fs s.

Definition event_key (ev : key_event) : pynput_key :=
  match ev with
  | Press k _ => k
  | Release k => k
  end.

Definition is_press_of (k : pynput_key) (ev : key_event) : bool :=
  match ev with
  | Press k' _ => key_eqb k' k
  | Release _ => false
  end.



(** The trace of typing [text] without failure: each character, then the
    delay. *)
Fixpoint keystrokes (text : string) : list event :=
  match text with
  | EmptyString => []
  | String element rest =>
      EvType element :: EvSleep Recorder.typing_delay :: keystrokes rest
  end.

Definition a_chunk : Audio.bytes := [x00; x80; xff; x7f]%list.

(** Collaborators that never fail: every read delivers [a_chunk], the model
    answers [text]. *)
Definition healthy (text : string) : collaborators := {|
  pa_open := fun _ => None;
  stream_read := fun _ => Ok a_chunk;
  stream_close := fun _ => None;
  model_transcribe := fun _ _ _ => Ok text;
  kb_type := fun _ _ => None
|}.

(** The microphone cannot be opened. *)
Definition no_microphone : collaborators := {|
  pa_open := fun _ => Some (Exception "Invalid input device");
  stream_read := fun _ => Ok a_chunk;
  stream_close := fun _ => None;
  model_transcribe := fun _ _ _ => Ok " hello";
  kb_type := fun _ _ => None
|}.

(** The model raises. *)
Definition failing_model : collaborators := {|
  pa_open := fun _ => None;
  stream_read := fun _ => Ok a_chunk;
  stream_close := fun _ => None;
  model_transcribe := fun _ _ _ => Raise (Exception "model failure");
  kb_type := fun _ _ => None
|}.

(** The keyboard controller rejects the letter l. *)
Definition failing_keyboard : collaborators := {|
  pa_open := fun _ => None;
  stream_read := fun _ => Ok a_chunk;
  stream_close := fun _ => None;
  model_transcribe := fun _ _ _ => Ok " hello";
  kb_type := fun _ element =>
    if Ascii.eqb element "l"%char
    then Some (Exception "invalid character")
    else None
|}.

Definition two_chunks : list Audio.bytes :=
  [[x00; x80; xff; x7f]; [x01; x00]]%list.

(** [stop()] and [start()] arrive while the first capture thread is between
    two tests of [self.recording]. *)
Definition restart_between_reads : list action :=
  [Call Start; Step 0; Step 0; Step 0;
   Call Stop; Call Start; Step 1;
   Step 0; Step 1; Step 1; Step 0]%list.

(** [stop()] arrives before the new thread has run its first statement. *)
Definition stop_before_thread_runs : list action :=
  [Call Start; Call Stop; Step 0; Step 0; Step 0]%list.

(** The characters typed so far. *)
Definition typed (s : system) : list event :=
  filter is_typed (trace s).

(** "For every error exit path, the active flag is false afterwards": in
    every reachable state, a pipeline step that ends its thread with an
    exception leaves the manager idle. *)
Definition errors_end_idle : Prop :=
  forall (c : collaborators) (lang : option string) (limit : option Q)
         (schedule : list action) (tid : nat) (e : exn),
    let before := run c schedule (init lang limit) in
    let after := Recorder._record_impl c tid before in
    nth_error (threads before) tid <> Some (Crashed e) ->
    nth_error (threads after) tid = Some (Crashed e) ->
    manager_recording after = false.

(** ** Python string methods used by the command line handling *)

(** [s.split(sep)] for a one-character separator. *)
Fixpoint split (sep : ascii) (s : string) : list string :=
  match s with
  | EmptyString => (EmptyString :: nil)%list
  | String ch rest =>
      if Ascii.eqb ch sep then (EmptyString :: split sep rest)%list
      else match split sep rest with
           | (part :: parts)%list => (String ch part :: parts)%list
           | nil => (String ch EmptyString :: nil)%list
           end
  end.

(** [sep.join(parts)] *)
Definition join (sep : ascii) (parts : list string) : string :=
  String.concat (String sep EmptyString) parts.

(** Number of occurrences of a character. *)
Fixpoint count (sep : ascii) (s : string) : nat :=
  match s with
  | EmptyString => 0
  | String ch rest => (if Ascii.eqb ch sep then 1 else 0) + count sep rest
  end.

(** [s.endswith(suffix)] *)
Definition endswith (suffix s : string) : bool :=
  (String.length suffix <=? String.length s)%nat
  && String.eqb
       (substring (String.length s - String.length suffix)
          (String.length suffix) s)
       suffix.

(** ** Command line: [GlobalKeyListener.parse_key_combination],
       [parse_args] after argparse, and the session language chosen in
       [__main__] *)

Module Cli.

Section Keys.
(** [getattr(keyboard.Key, name, ...)]: the member of pynput's [Key] enum
    with that name, when there is one.  The enum belongs to pynput, so it
    is a parameter here; two names of one key may be given the same
    member.  Names of other attributes of the enum class (dunder names)
    are not keys and are left out. *)
Variable keyboard_Key : string -> option pynput_key.

(** [getattr(keyboard.Key, name, keyboard.KeyCode(char=name))] *)
Definition key_of_name (name : string) : pynput_key :=
  match keyboard_Key name with
  | Some k => k
  | None => KeyCode name
  end.

(** [key1_name, key2_name = key_combination.split('+')] raises
    [ValueError] unless there are exactly two parts. *)
Definition parse_key_combination (key_combination : string)
    : result (pynput_key * pynput_key) :=
  match split "+" key_combination with
  | (key1_name :: key2_name :: nil)%list =>
      Ok (key_of_name key1_name, key_of_name key2_name)
  | (_ :: nil)%list | nil =>
      Raise (Exception "not enough values to unpack (expected 2, got 1)")
  | _ => Raise (Exception "too many values to unpack (expected 2)")
  end.

End Keys.

(** The namespace argparse returns; [L] is the type of [language], a string
    before and a list after [parse_args] has split it. *)
Record namespace (L : Type) : Type := {
  model_name : string;
  key_combination : string;
  k_double_cmd : bool;
  ptt : bool;
  language : option L;
  max_time : Q;
  audio_file : option string
}.
Arguments model_name {L} n.
Arguments key_combination {L} n.
Arguments k_double_cmd {L} n.
Arguments ptt {L} n.
Arguments language {L} n.
Arguments max_time {L} n.
Arguments audio_file {L} n.

(** [any(lang != 'en' for lang in args.language)] *)
Definition any_not_en (languages : list string) : bool :=
  existsb (fun lang => negb (String.eqb lang "en")) languages.

(** Lines 240-244 of [parse_args], on the namespace argparse produced. *)
Definition parse_args (args : namespace string)
    : result (namespace (list string)) :=
  let languages := option_map (split ",") (language args) in
  if endswith ".en" (model_name args)
     && match languages with
        | Some ls => any_not_en ls
        | None => false
        end
  then Raise (Exception "If using a .en model, language must be English.")
  else Ok {| model_name := model_name args;
             key_combination := key_combination args;
             k_double_cmd := k_double_cmd args;
             ptt := ptt args;
             language := languages;
             max_time := max_time args;
             audio_file := audio_file args |}.


End Cli.

(** ** Vocabulary of the further properties *)

(** A call log made of [start()] and [stop()] in strict alternation;
    [expect_start] says which of the two must come first. *)
Fixpoint alternates (expect_start : bool) (cs : list call) : bool :=
  match cs with
  | nil => true
  | (Start :: rest)%list => expect_start && alternates false rest
  | (Stop :: rest)%list => negb expect_start && alternates true rest
  | (Toggle :: _)%list => false
  end.

(** The tone push-to-talk plays with each call. *)
Definition tone_of_call (f : call) : Z :=
  match f with
  | Start => 300%Z
  | Stop => 600%Z
  | Toggle => 0%Z
  end.

(** How many calls of a sequence take the session from idle to
    recording. *)
Fixpoint sessions_started (fs : list call) (active : bool) : nat :=
  match fs with
  | nil => 0
  | (f :: rest)%list =>
      (if negb active && Spec.transition active f then 1 else 0)
      + sessions_started rest (Spec.transition active f)
  end.

(** Every timer that can still fire is the manager's current one, and the
    manager is recording. *)
Definition only_current_timer_armed (s : system) : Prop :=
  forall id,
    nth_error (timers s) id = Some Armed ->
    manager_recording s = true /\ manager_timer s = Some id.

(** A recording manager holds a timer that can still fire. *)
Definition deadline_armed (s : system) : Prop :=
  manager_recording s = true ->
  exists id,
    manager_timer s = Some id /\ nth_error (timers s) id = Some Armed.

(** One uninterrupted session of thread [tid]: [start()], the thread sets
    its flag and opens the stream, [reads] turns of the capture loop,
    [stop()], and the rest of the thread. *)
Definition session (tid reads : nat) : list action :=
  ((Call Start :: Step tid :: Step tid :: nil)
   ++ repeat (Step tid) reads
   ++ (Call Stop :: Step tid :: nil))%list.

(** The chunks the stream delivered. *)
Fixpoint chunks_read (evs : list event) : list Audio.bytes :=
  match evs with
  | nil => nil
  | (EvStreamRead data :: rest)%list => (data :: chunks_read rest)%list
  | (_ :: rest)%list => chunks_read rest
  end.

(** The characters of [EvType] events, as a string. *)
Fixpoint typed_text (evs : list event) : string :=
  match evs with
  | nil => EmptyString
  | (EvType element :: rest)%list => String element (typed_text rest)
  | (_ :: rest)%list => typed_text rest
  end.

(** Collaborators that never raise and deliver whole samples. *)
Definition never_fails (c : collaborators) : Prop :=
  (forall history, pa_open c history = None) /\
  (forall history,
     exists data,
       stream_read c history = Ok data
       /\ Nat.even (length data) = true) /\
  (forall history, stream_close c history = None) /\
  (forall history audio lang,
     exists text, model_transcribe c history audio lang = Ok text) /\
  (forall history element, kb_type c history element = None).

(** The trace of the typing step when the keyboard controller never
    fails. *)
Definition emitted (transcription : string) : list event :=
  match transcription with
  | EmptyString => (EvPrint "No transcription text to type." :: nil)%list
  | String _ _ =>
      (keystrokes transcription ++ EvPrint "Typing complete." :: nil)%list
  end.

Definition is_press (ev : key_event) : bool :=
  match ev with
  | Press _ _ => true
  | Release _ => false
  end.

(** What holds between the push-to-talk listener and the log of its
    calls. *)
Definition push_to_talk_consistent {M : Type}
    (st : PushToTalkListener.outcome (spy M)) : Prop :=
  alternates true (calls (PushToTalkListener.manager st)) = true /\
  PushToTalkListener.active (PushToTalkListener.listener st)
  = Nat.odd (length (calls (PushToTalkListener.manager st))) /\
  PushToTalkListener.tones st
  = map tone_of_call (calls (PushToTalkListener.manager st)).

(** The keyboard controller accepts every character of [done] at the moment
    the typing loop reaches it, when the loop starts after [history]. *)
Definition accepted (c : collaborators) (history : list event)
    (done : string) : Prop :=
  forall before element rest,
    done = (before ++ String element rest)%string ->
    kb_type c (history ++ keystrokes before) element = None.

(** * Properties *)

Local Close Scope string_scope.
Local Open Scope list_scope.

(** ** The audio buffer *)

Section AudioFacts.
Import Audio.

Lemma pairs_ind (A : Type) (P : list A -> Prop) :
  P [] -> (forall x, P [x]) ->
  (forall x y l, P l -> P (x :: y :: l)) ->
  forall l, P l.
Proof.
  intros Hnil Hone Hstep.
  fix IH 1.
  intros [|x [|y l]]; [exact Hnil | apply Hone | apply Hstep, IH].
Qed.

Lemma even_length_cons2 (A : Type) (x y : A) (l : list A) :
  Nat.even (length (x :: y :: l)) = Nat.even (length l).
Proof. reflexivity. Qed.

Lemma int16_samples_app (a b : bytes) :
  Nat.even (length a) = true ->
  int16_samples (a ++ b) = int16_samples a ++ int16_samples b.
Proof.
  induction a as [| x | x y l IH] using pairs_ind; intros Hev.
  - reflexivity.
  - discriminate.
  - rewrite even_length_cons2 in Hev. simpl. now rewrite IH.
Qed.

Lemma int16_samples_length (b : bytes) :
  length (int16_samples b) = length b / 2.
Proof.
  induction b as [| x | x y l IH] using pairs_ind; try reflexivity.
  change (length (x :: y :: l)) with (1 * 2 + length l).
  rewrite Nat.div_add_l by discriminate.
  simpl. now rewrite IH.
Qed.

Lemma even_length_app (A : Type) (a b : list A) :
  Nat.even (length a) = true ->
  Nat.even (length (a ++ b)) = Nat.even (length b).
Proof.
  induction a as [| x | x y l IH] using pairs_ind; intros Hev.
  - reflexivity.
  - discriminate.
  - simpl app. rewrite !even_length_cons2 in *. now apply IH.
Qed.

Lemma join_even (frames : list bytes) :
  Forall (fun chunk => Nat.Even (length chunk)) frames ->
  Nat.even (length (join frames)) = true.
Proof.
  induction 1 as [| chunk frames Hc _ IH]; [reflexivity |].
  unfold join in *. simpl.
  rewrite even_length_app; [exact IH | now apply Nat.even_spec].
Qed.

Lemma join_samples (frames : list bytes) :
  Forall (fun chunk => Nat.Even (length chunk)) frames ->
  int16_samples (join frames) = flat_map int16_samples frames.
Proof.
  induction 1 as [| chunk frames Hc _ IH]; [reflexivity |].
  unfold join in *. simpl.
  rewrite int16_samples_app by now apply Nat.even_spec.
  now rewrite IH.
Qed.

Lemma byte_range (b : byte) : (0 <= Z.of_N (Byte.to_N b) < 256)%Z.
Proof.
  pose proof (Byte.to_N_bounded b) as Hb.
  lia.
Qed.

Lemma int16_range (lo hi : byte) :
  (-32768 <= int16_of_le lo hi <= 32767)%Z.
Proof.
  unfold int16_of_le.
  pose proof (byte_range lo). pose proof (byte_range hi).
  destruct (Z.ltb_spec (Z.of_N (Byte.to_N lo) + 256 * Z.of_N (Byte.to_N hi))
              32768); lia.
Qed.

Lemma int16_samples_range (b : bytes) :
  Forall (fun z => (-32768 <= z <= 32767)%Z) (int16_samples b).
Proof.
  induction b as [| x | x y l IH] using pairs_ind; simpl; auto.
  constructor; [apply int16_range | exact IH].
Qed.

Lemma to_float32_scale (sample : Z) :
  (to_float32 sample == inject_Z sample * (1 # 32768))%Q.
Proof. reflexivity. Qed.

Lemma to_float32_range (sample : Z) :
  (-32768 <= sample <= 32767)%Z ->
  (-1 <= to_float32 sample <= 1)%Q.
Proof.
  intros Hs. unfold to_float32, Qle, Qdiv, Qmult, Qinv, inject_Z. simpl.
  lia.
Qed.

Lemma flat_map_map (A B C : Type) (f : A -> list B) (g : B -> C)
    (l : list A) :
  map g (flat_map f l) = flat_map (fun x => map g (f x)) l.
Proof.
  induction l as [| x l IH]; simpl; [reflexivity |].
  now rewrite map_app, IH.
Qed.

Lemma flat_map_length_sum (A B : Type) (f : A -> list B) (l : list A) :
  length (flat_map f l) = list_sum (map (fun x => length (f x)) l).
Proof.
  induction l as [| x l IH]; simpl; [reflexivity |].
  now rewrite length_app, IH.
Qed.

End AudioFacts.

(** Chunks of the size PyAudio delivers: one sample per frame. *)
Lemma full_chunks_sample_count (frames : list Audio.bytes) :
  Forall (fun chunk => length chunk = Audio.chunk_size) frames ->
  exists buf,
    Audio.audio_data_fp32 frames = Ok buf /\
    length buf = length frames * Audio.frames_per_buffer.
Proof.
  intros Hfull.
  assert (Hlen : length (Audio.join frames)
                 = length frames * Audio.frames_per_buffer * 2).
  { unfold Audio.join.
    induction Hfull as [| chunk frames Hc _ IH]; [reflexivity |].
    simpl concat. rewrite length_app, IH, Hc.
    unfold Audio.chunk_size, Audio.sample_width. simpl length. lia. }
  unfold Audio.audio_data_fp32, Audio.frombuffer_int16.
  rewrite Hlen, Nat.even_mul, orb_true_r.
  eexists. split; [reflexivity |].
  now rewrite length_map, int16_samples_length, Hlen, Nat.div_mul.
Qed.

(** C8.  Chunks as the stream delivers them hold whole 16-bit samples.
    With zero chunks the converted buffer is empty.  In general it is the
    chunks' samples in capture order, each an int16 times 1/32768, so it has
    as many entries as there are int16 samples, all within [-1, 1]. *)
Theorem C8_capture_buffer (frames : list Audio.bytes) :
  Forall (fun chunk => Nat.Even (length chunk)) frames ->
  Audio.audio_data_fp32 [] = Ok [] /\
  (forall sample,
     (Audio.to_float32 sample == inject_Z sample * (1 # 32768))%Q) /\
  exists buf,
    Audio.audio_data_fp32 frames = Ok buf /\
    buf = flat_map (fun chunk =>
                      map Audio.to_float32 (Audio.int16_samples chunk))
            frames /\
    length buf = list_sum (map (fun chunk => length chunk / 2) frames) /\
    Forall (fun x => (-1 <= x <= 1)%Q) buf.
Proof.
  intros Hframes.
  split; [reflexivity |].
  split; [exact to_float32_scale |].
  unfold Audio.audio_data_fp32, Audio.frombuffer_int16.
  rewrite (join_even frames Hframes).
  eexists; split; [reflexivity |].
  rewrite (join_samples frames Hframes).
  split; [apply flat_map_map |].
  split.
  - rewrite length_map, flat_map_length_sum.
    f_equal. apply map_ext. intros chunk. apply int16_samples_length.
  - apply Forall_forall. intros x Hx.
    apply in_map_iff in Hx. destruct Hx as [z [<- Hz]].
    apply to_float32_range.
    apply in_flat_map in Hz. destruct Hz as [chunk [_ Hz]].
    pose proof (int16_samples_range chunk) as Hr.
    now apply (proj1 (Forall_forall _ _) Hr).
Qed.

Lemma C8_capture_buffer_witness :
  Forall (fun chunk => Nat.Even (length chunk)) two_chunks /\
  exists buf,
    Audio.audio_data_fp32 two_chunks = Ok buf /\
    length buf = 3 /\
    Forall (fun x => (-1 <= x <= 1)%Q) buf.
Proof.
  assert (Hev : Forall (fun chunk => Nat.Even (length chunk)) two_chunks).
  { repeat constructor; [exists 2 | exists 1]; reflexivity. }
  split; [exact Hev |].
  destruct (C8_capture_buffer two_chunks Hev) as [_ [_ [buf [H1 [_ [H3 H4]]]]]].
  exists buf. repeat split; assumption.
Defined.

(** ** The session manager *)

Lemma start_sets_recording (s : system) :
  manager_recording (RecordingManager.start s) = true.
Proof.
  unfold RecordingManager.start.
  destruct (manager_recording s) eqn:Hrec; [exact Hrec |].
  simpl. now destruct (max_time s).
Qed.

Lemma stop_clears_recording (s : system) :
  manager_recording (RecordingManager.stop s) = false.
Proof.
  unfold RecordingManager.stop.
  now destruct (manager_recording s) eqn:Hrec.
Qed.

Lemma toggle_flips_recording (s : system) :
  manager_recording (RecordingManager.toggle s)
  = negb (manager_recording s).
Proof.
  unfold RecordingManager.toggle.
  destruct (manager_recording s) eqn:Hrec.
  - apply stop_clears_recording.
  - apply start_sets_recording.
Qed.

Lemma apply_call_transition (f : call) (s : system) :
  manager_recording (apply_call f s)
  = Spec.transition (manager_recording s) f.
Proof.
  destruct f; simpl.
  - rewrite start_sets_recording. now destruct (manager_recording s).
  - rewrite stop_clears_recording. now destruct (manager_recording s).
  - rewrite toggle_flips_recording. now destruct (manager_recording s).
Qed.

Lemma run_calls_fold (fs : list call) (s : system) :
  manager_recording (run_calls fs s) = Spec.fold fs (manager_recording s).
Proof.
  revert s.
  induction fs as [| f fs IH]; intros s; [reflexivity |].
  unfold run_calls, Spec.fold in *. simpl.
  rewrite IH. now rewrite apply_call_transition.
Qed.

(** C3.  After every prefix of a sequence of [start()] / [stop()] /
    [toggle()] calls the manager's flag is the fold of that prefix under the
    specification's transition rules.  [start()] on an active session and
    [stop()] on an idle one change nothing at all, and [toggle()] is
    [stop()] when active and [start()] when idle. *)
Theorem C3_manager_fold (fs : list call) (s : system) :
  (forall n,
     manager_recording (run_calls (firstn n fs) s)
     = Spec.fold (firstn n fs) (manager_recording s)) /\
  (manager_recording s = true -> RecordingManager.start s = s) /\
  (manager_recording s = false -> RecordingManager.stop s = s) /\
  RecordingManager.toggle s
  = (if manager_recording s
     then RecordingManager.stop s
     else RecordingManager.start s).
Proof.
  split; [intros n; apply run_calls_fold |].
  unfold RecordingManager.start, RecordingManager.stop.
  repeat split; intros Hrec; now rewrite Hrec.
Qed.

(** ** Keys and clock readings *)

Lemma key_eqb_refl (k : pynput_key) : key_eqb k k = true.
Proof. destruct k; simpl; apply String.eqb_refl. Qed.

Lemma key_eqb_eq (a b : pynput_key) : key_eqb a b = true <-> a = b.
Proof.
  split.
  - destruct a, b; simpl; intros Heq; try discriminate;
      apply String.eqb_eq in Heq; now subst.
  - intros ->. apply key_eqb_refl.
Qed.


Lemma Qltb_lt (x y : Q) : Qltb x y = true <-> (x < y)%Q.
Proof.
  unfold Qltb. rewrite negb_true_iff.
  split.
  - intros Hle. apply Qnot_le_lt. intros Hyx.
    apply Qle_bool_iff in Hyx. congruence.
  - intros Hlt. destruct (Qle_bool y x) eqn:Hle; [| reflexivity].
    apply Qle_bool_iff in Hle. exfalso. now apply (Qlt_not_le x y).
Qed.

Lemma quick_spec (now last : Q) :
  quick now last = true <-> (now - last < 1 # 2)%Q.
Proof. apply Qltb_lt. Qed.

Lemma app_one_neq (A : Type) (l : list A) (x : A) : l ++ [x] <> l.
Proof.
  intros Heq. apply (f_equal (@length A)) in Heq.
  rewrite length_app in Heq. simpl in Heq. lia.
Qed.

(** ** The double-tap listener *)

Section DoubleTap.
Context {M : Type} `{recording_manager M}.
Import DoubleCommandKeyListener.

(** C5.  On a press of the designated key at clock reading [now], with the
    calls on the manager recorded: while idle, [start()] is called exactly
    when less than 0.5 s passed since the previous press of that key, and
    nothing is called otherwise; while recording, [stop()] is called
    whatever the timing; and the last-press time becomes [now] in every
    case. *)
Theorem C5_double_tap (self : t) (now : Q) (m : spy M) :
  let after := on_key_press self (key self) now m in
  (recording m = false ->
     (calls (snd after) = calls m ++ [Start]
      <-> (now - last_press_time self < 1 # 2)%Q) /\
     ((now - last_press_time self < 1 # 2)%Q -> snd after = start m) /\
     (~ (now - last_press_time self < 1 # 2)%Q -> snd after = m)) /\
  (recording m = true ->
     snd after = stop m /\ calls (snd after) = calls m ++ [Stop]) /\
  last_press_time (fst after) = now.
Proof.
  unfold on_key_press. rewrite key_eqb_refl. cbn zeta.
  pose proof (quick_spec now (last_press_time self)) as Hq.
  split; [intros Hidle | split; [intros Hrec |]].
  - rewrite Hidle. simpl.
    destruct (quick now (last_press_time self)) eqn:Hquick; simpl.
    + repeat split; intros; try reflexivity; try now apply Hq.
      exfalso. now intuition.
    + assert (Hslow : ~ (now - last_press_time self < 1 # 2)%Q).
      { intros Hlt. apply Hq in Hlt. discriminate. }
      repeat split; intros; try reflexivity; try contradiction.
      exfalso. now apply (app_one_neq _ (calls m) Start).
  - now rewrite Hrec.
  - reflexivity.
Qed.

End DoubleTap.

(** ** The push-to-talk listener *)

Section PushToTalkInactive.
Context {M : Type} `{recording_manager M}.
Import PushToTalkListener.


End PushToTalkInactive.

Section PushToTalk.
Context {M : Type} `{recording_manager M}.
Import PushToTalkListener.


End PushToTalk.

(** ** The chord listener *)

Section ChordFirstKey.
Context {M : Type} `{recording_manager M}.
Import GlobalKeyListener.


End ChordFirstKey.

Section Chord.
Context {M : Type} `{recording_manager M}.
Import GlobalKeyListener.


(** C10.  The test of the two flags is made on every press: once both are
    set, a press of any key at all, a third key included, calls [toggle()],
    and a third key leaves the flags as they are. *)
Theorem C10_any_press_toggles (self : t) (k : pynput_key) (m : spy M) :
  key1_pressed self = true ->
  key2_pressed self = true ->
  snd (on_key_press self k m) = toggle m /\
  calls (snd (on_key_press self k m)) = calls m ++ [Toggle] /\
  (key_eqb k (key1 self) = false ->
   key_eqb k (key2 self) = false ->
   fst (on_key_press self k m) = self).
Proof.
  intros H1 H2. unfold on_key_press.
  destruct (key_eqb k (key1 self)) eqn:Hk1;
    [| destruct (key_eqb k (key2 self)) eqn:Hk2]; simpl;
    rewrite ?H1, ?H2; simpl; repeat split; intros; discriminate.
Qed.

End Chord.


Lemma C10_any_press_toggles_witness :
  let held := {| GlobalKeyListener.key1 := Key "ctrl";
                 GlobalKeyListener.key2 := Key "alt";
                 GlobalKeyListener.key1_pressed := true;
                 GlobalKeyListener.key2_pressed := true |} in
  let m := {| inner := init None None; calls := [Toggle] |} in
  calls (snd (GlobalKeyListener.on_key_press held (KeyCode "x") m))
  = [Toggle; Toggle].
Proof.
  exact (proj1 (proj2
    (C10_any_press_toggles
       {| GlobalKeyListener.key1 := Key "ctrl";
          GlobalKeyListener.key2 := Key "alt";
          GlobalKeyListener.key1_pressed := true;
          GlobalKeyListener.key2_pressed := true |}
       (KeyCode "x")
       {| inner := init None None; calls := [Toggle] |}
       eq_refl eq_refl))).
Defined.

(** ** Traces *)

Lemma log_log (a b : list event) (s : system) :
  log b (log a s) = log (a ++ b) s.
Proof. unfold log. simpl. now rewrite app_assoc. Qed.

Lemma log_nil (s : system) : log [] s = s.
Proof. destruct s. unfold log. simpl. now rewrite app_nil_r. Qed.

Lemma added_exact (s s' : system) (evs : list event) :
  trace s' = trace s ++ evs -> added s s' = evs.
Proof.
  intros Heq. unfold added. rewrite Heq.
  rewrite skipn_app, skipn_all, Nat.sub_diag. reflexivity.
Qed.

Lemma nth_error_update (A : Type) (l : list A) (i : nat) (x y : A) :
  nth_error l i = Some x -> nth_error (update l i y) i = Some y.
Proof.
  revert i. induction l as [| z l IH]; intros [| i] Hnth; simpl in *;
    try discriminate; [reflexivity | now apply IH].
Qed.

(** ** Typing the transcription *)


Section Typing.
Variable c : collaborators.

(** The loop either types the whole text, or stops at the first character
    the controller rejects, with everything before it typed. *)
Lemma type_elements_outcome (text : string) (s : system) :
  Recorder.type_elements c text s = (None, log (keystrokes text) s) \/
  exists done element rest e,
    text = (done ++ String element rest)%string /\
    kb_type c (trace s ++ keystrokes done) element = Some e /\
    Recorder.type_elements c text s = (Some e, log (keystrokes done) s).
Proof.
  revert s. induction text as [| element rest IH]; intros s.
  - left. simpl. now rewrite log_nil.
  - simpl. destruct (kb_type c (trace s) element) as [e |] eqn:Hkb.
    + right. exists EmptyString, element, rest, e. simpl.
      rewrite app_nil_r, log_nil. auto.
    + destruct (IH (log [EvType element; EvSleep Recorder.typing_delay] s))
        as [Hall | [done [el [rest' [e [Htext [Hkb' Hstop]]]]]]].
      * left. now rewrite Hall, log_log.
      * right. exists (String element done), el, rest', e.
        simpl in Hkb'. rewrite <- app_assoc in Hkb'. simpl in Hkb'.
        rewrite Hstop, log_log, Htext. auto.
Qed.

Lemma type_elements_all (text : string) (s : system) :
  (forall history element, kb_type c history element = None) ->
  Recorder.type_elements c text s = (None, log (keystrokes text) s).
Proof.
  intros Hok.
  destruct (type_elements_outcome text s)
    as [Hall | [done [el [rest [e [_ [Hkb _]]]]]]]; [exact Hall |].
  rewrite Hok in Hkb. discriminate.
Qed.

Lemma accepted_tail (history : list event) (element : ascii)
    (done : string) :
  accepted c history (String element done) ->
  kb_type c history element = None /\
  accepted c (history ++ [EvType element; EvSleep Recorder.typing_delay])
    done.
Proof.
  intros Hacc. split.
  - specialize (Hacc EmptyString element done eq_refl).
    simpl in Hacc. now rewrite app_nil_r in Hacc.
  - intros before el rest Hdone.
    specialize (Hacc (String element before) el rest).
    simpl in Hacc. rewrite <- app_assoc. simpl.
    apply Hacc. now rewrite Hdone.
Qed.

(** Every character accepted: the whole text is typed. *)
Lemma type_elements_accepted (text : string) (s : system) :
  accepted c (trace s) text ->
  Recorder.type_elements c text s = (None, log (keystrokes text) s).
Proof.
  revert s. induction text as [| element rest IH]; intros s Hacc.
  - simpl. now rewrite log_nil.
  - destruct (accepted_tail _ _ _ Hacc) as [Hfirst Hrest].
    simpl. rewrite Hfirst.
    rewrite (IH (log [EvType element; EvSleep Recorder.typing_delay] s))
      by exact Hrest.
    now rewrite log_log.
Qed.

(** The first rejected character ends the loop with its exception, after
    the characters before it were typed. *)
Lemma type_elements_rejected (done : string) (element : ascii)
    (rest : string) (e : exn) (s : system) :
  accepted c (trace s) done ->
  kb_type c (trace s ++ keystrokes done) element = Some e ->
  Recorder.type_elements c (done ++ String element rest)%string s
  = (Some e, log (keystrokes done) s).
Proof.
  revert s. induction done as [| ch done IH]; intros s Hacc Hkb.
  - simpl in *. rewrite app_nil_r in Hkb. now rewrite Hkb, log_nil.
  - destruct (accepted_tail _ _ _ Hacc) as [Hfirst Hrest].
    simpl. rewrite Hfirst.
    rewrite (IH (log [EvType ch; EvSleep Recorder.typing_delay] s)).
    + now rewrite log_log.
    + exact Hrest.
    + simpl. rewrite <- app_assoc. exact Hkb.
Qed.

Lemma type_transcription_rejected (text done : string) (element : ascii)
    (rest : string) (e : exn) (s : system) :
  text = (done ++ String element rest)%string ->
  accepted c (trace s) done ->
  kb_type c (trace s ++ keystrokes done) element = Some e ->
  Recorder.type_transcription c text s
  = log (keystrokes done
         ++ [EvPrint ("Error typing transcription: " ++ str e)%string]) s.
Proof.
  intros Htext Hacc Hkb.
  pose proof (type_elements_rejected done element rest e s Hacc Hkb) as Hr.
  rewrite <- Htext in Hr. unfold Recorder.type_transcription.
  destruct text as [| ch tail]; [destruct done; discriminate |].
  rewrite Hr. now rewrite log_log.
Qed.

End Typing.

(** C9.  An empty transcription types nothing: the only effect is the log
    line.  A non-empty one is typed character by character, in order, each
    followed by the 2.5 ms sleep.  When the keyboard controller accepts
    every character as it is reached, the whole text is typed and "Typing
    complete." is logged.  When it raises at some character, after
    accepting the ones before it, typing stops there, the error is logged
    with its message, and what was typed before it stays in the trace:
    nothing is taken back and nothing more is typed.  These are the only
    two outcomes. *)
Theorem C9_emission (c : collaborators) (text : string) (s : system) :
  Recorder.type_transcription c EmptyString s
  = log [EvPrint "No transcription text to type."] s /\
  Recorder.typing_delay = (25 # 10000)%Q /\
  (text <> EmptyString ->
   Recorder.type_transcription c text s
   = log (keystrokes text ++ [EvPrint "Typing complete."]) s
   \/
   exists done element rest e,
     text = (done ++ String element rest)%string /\
     kb_type c (trace s ++ keystrokes done) element = Some e /\
     Recorder.type_transcription c text s
     = log (keystrokes done
            ++ [EvPrint ("Error typing transcription: " ++ str e)%string]) s)
  /\
  (text <> EmptyString ->
   (forall history element, kb_type c history element = None) ->
   Recorder.type_transcription c text s
   = log (keystrokes text ++ [EvPrint "Typing complete."]) s) /\
  (text <> EmptyString ->
   accepted c (trace s) text ->
   Recorder.type_transcription c text s
   = log (keystrokes text ++ [EvPrint "Typing complete."]) s) /\
  (forall done element rest e,
     text = (done ++ String element rest)%string ->
     accepted c (trace s) done ->
     kb_type c (trace s ++ keystrokes done) element = Some e ->
     Recorder.type_transcription c text s
     = log (keystrokes done
            ++ [EvPrint ("Error typing transcription: " ++ str e)%string])
         s).
Proof.
  split; [reflexivity |]. split; [reflexivity |].
  split; [| split; [| split]].
  - intros Hne. destruct text as [| element rest]; [contradiction |].
    unfold Recorder.type_transcription.
    destruct (type_elements_outcome c (String element rest) s)
      as [Hall | [done [el [rest' [e [Htext [Hkb Hstop]]]]]]].
    + left. now rewrite Hall, log_log.
    + right. exists done, el, rest', e.
      rewrite Hstop, log_log. auto.
  - intros Hne Hok. destruct text as [| element rest]; [contradiction |].
    unfold Recorder.type_transcription.
    now rewrite (type_elements_all c _ s Hok), log_log.
  - intros Hne Hacc. destruct text as [| element rest]; [contradiction |].
    unfold Recorder.type_transcription.
    now rewrite (type_elements_accepted c _ s Hacc), log_log.
  - intros done element rest e. apply type_transcription_rejected.
Qed.

(** The keyboard controller that rejects the letter l, on "hello": the h
    and the e are accepted when reached, the first l raises. *)
Example rejected_letter_is_logged :
  accepted failing_keyboard (trace (init None None)) "he" /\
  kb_type failing_keyboard
    (trace (init None None) ++ keystrokes "he") "l"
  = Some (Exception "invalid character") /\
  Recorder.type_transcription failing_keyboard "hello" (init None None)
  = log (keystrokes "he"
         ++ [EvPrint "Error typing transcription: invalid character"])
      (init None None).
Proof.
  split; [| split; reflexivity].
  intros before element rest Hdone.
  destruct before as [| b1 [| b2 [| b3 before]]]; simpl in Hdone;
    inversion Hdone; subst; reflexivity.
Qed.

Example typing_stops_at_rejected_character :
  added (init None None)
    (Recorder.type_transcription failing_keyboard "hello" (init None None))
  = [EvType "h"; EvSleep (25 # 10000); EvType "e"; EvSleep (25 # 10000);
     EvPrint "Error typing transcription: invalid character"].
Proof. reflexivity. Qed.

(** ** The pipeline thread *)

Section Pipeline.
Variable c : collaborators.

(** Typing only adds to the trace. *)
Lemma type_transcription_log (text : string) (s : system) :
  exists evs, Recorder.type_transcription c text s = log evs s.
Proof.
  unfold Recorder.type_transcription.
  destruct text as [| element rest]; [eauto |].
  destruct (type_elements_outcome c (String element rest) s)
    as [Hall | [done [el [rest' [e [_ [_ Hstop]]]]]]];
    [rewrite Hall | rewrite Hstop]; rewrite log_log; eauto.
Qed.

Lemma record_impl_keeps_manager (tid : nat) (s : system) :
  manager_recording (Recorder._record_impl c tid s) = manager_recording s
  /\ manager_timer (Recorder._record_impl c tid s) = manager_timer s
  /\ timers (Recorder._record_impl c tid s) = timers s.
Proof.
  unfold Recorder._record_impl, Recorder.after_capture,
    SpeechTranscriber.transcribe.
  destruct (nth_error (threads s) tid) as [[lang | lang | lang frames | | e] |];
    simpl; auto.
  - destruct (pa_open c (trace s)); simpl; auto.
  - destruct (recorder_recording s).
    + destruct (stream_read c (trace s)); simpl; auto.
    + destruct (stream_close c (trace s)); simpl; auto.
      destruct (Audio.audio_data_fp32 frames) as [audio | e]; simpl; auto.
      destruct (model_transcribe c _ audio lang) as [text | e]; simpl; auto.
      match goal with
      | |- context [Recorder.type_transcription c ?t ?st] =>
          destruct (type_transcription_log t st) as [evs Hevs]
      end.
      rewrite Hevs. simpl. auto.
Qed.

Lemma steps_keep_manager (tids : list nat) (s : system) :
  manager_recording (run c (map Step tids) s) = manager_recording s.
Proof.
  revert s. induction tids as [| tid tids IH]; intros s; [reflexivity |].
  unfold run in *. simpl. rewrite IH.
  apply record_impl_keeps_manager.
Qed.

(** After the loop, an answer of the model always leads to [Finished],
    whatever the keyboard controller does. *)
Lemma typing_never_crashes (tid : nat) (lang : option string)
    (frames : list Audio.bytes) (audio : list Q) (text : string)
    (s : system) :
  nth_error (threads s) tid = Some (Capturing lang frames) ->
  recorder_recording s = false ->
  stream_close c (trace s) = None ->
  Audio.audio_data_fp32 frames = Ok audio ->
  model_transcribe c (trace s ++ [EvStreamClose]) audio lang = Ok text ->
  nth_error (threads (Recorder._record_impl c tid s)) tid = Some Finished.
Proof.
  intros Hth Hflag Hclose Haudio Hmodel.
  unfold Recorder._record_impl, Recorder.after_capture,
    SpeechTranscriber.transcribe.
  rewrite Hth, Hflag, Hclose, Haudio. simpl. rewrite Hmodel.
  unfold set_thread. simpl.
  assert (Hkeep : forall s0, threads (Recorder.type_transcription c
                                        (lstrip text) s0) = threads s0).
  { intros s0.
    destruct (type_transcription_log (lstrip text) s0) as [evs Hevs].
    now rewrite Hevs. }
  rewrite Hkeep. simpl.
  now apply nth_error_update with (x := Capturing lang frames).
Qed.

End Pipeline.

(** C4 (what the code does).  When the model raises at the transcription
    step, the exception is not handled anywhere in the thread: the thread
    ends with it, and apart from closing the stream and calling the model
    the only thing recorded is the uncaught exception; no log line of the
    program is written and nothing is typed. *)
Theorem C4_transcription_error_escapes (c : collaborators) (tid : nat)
    (lang : option string) (frames : list Audio.bytes) (audio : list Q)
    (e : exn) (s : system) :
  nth_error (threads s) tid = Some (Capturing lang frames) ->
  recorder_recording s = false ->
  stream_close c (trace s) = None ->
  Audio.audio_data_fp32 frames = Ok audio ->
  model_transcribe c (trace s ++ [EvStreamClose]) audio lang = Raise e ->
  let s' := Recorder._record_impl c tid s in
  nth_error (threads s') tid = Some (Crashed e) /\
  added s s' = [EvStreamClose; EvTranscribe audio lang; EvUncaught tid e].
Proof.
  intros Hth Hflag Hclose Haudio Hmodel. cbn zeta.
  unfold Recorder._record_impl, Recorder.after_capture,
    SpeechTranscriber.transcribe.
  rewrite Hth, Hflag, Hclose, Haudio. simpl. rewrite Hmodel.
  split.
  - unfold crash, set_thread. simpl.
    now apply nth_error_update with (x := Capturing lang frames).
  - apply added_exact. unfold crash, set_thread. simpl.
    now rewrite <- !app_assoc.
Qed.

Lemma C4_transcription_error_escapes_witness :
  let s := run failing_model
             [Call Start; Step 0; Step 0; Step 0; Call Stop]
             (init None None) in
  let s' := Recorder._record_impl failing_model 0 s in
  nth_error (threads s) 0 = Some (Capturing None [a_chunk]) /\
  nth_error (threads s') 0 = Some (Crashed (Exception "model failure")) /\
  added s s'
  = [EvStreamClose;
     EvTranscribe [Audio.to_float32 (-32768); Audio.to_float32 32767] None;
     EvUncaught 0 (Exception "model failure")].
Proof.
  split; [reflexivity |].
  exact (C4_transcription_error_escapes failing_model 0 None [a_chunk]
           [Audio.to_float32 (-32768); Audio.to_float32 32767]
           (Exception "model failure")
           (run failing_model
              [Call Start; Step 0; Step 0; Step 0; Call Stop]
              (init None None))
           eq_refl eq_refl eq_refl eq_refl eq_refl).
Defined.

(** C2 (as claimed, refuted).  The microphone cannot be opened: the thread
    of the session just started ends with the exception while the manager
    still says it is recording. *)
Lemma C2_capture_error_leaves_recording : ~ errors_end_idle.
Proof.
  intros Hclaim.
  specialize (Hclaim no_microphone None (Some 30%Q)
                [Call Start; Step 0] 0
                (Exception "Invalid input device")).
  simpl in Hclaim.
  assert (Hflag : true = false)
    by (apply Hclaim; [discriminate | reflexivity]).
  discriminate.
Qed.

(** What the thread adds to the trace when the keyboard controller raises
    at [element], after accepting [done]. *)
Lemma emission_error_trace (c : collaborators) (tid : nat)
    (lang : option string) (frames : list Audio.bytes) (audio : list Q)
    (text done : string) (element : ascii) (rest : string) (e : exn)
    (s : system) :
  nth_error (threads s) tid = Some (Capturing lang frames) ->
  recorder_recording s = false ->
  stream_close c (trace s) = None ->
  Audio.audio_data_fp32 frames = Ok audio ->
  model_transcribe c (trace s ++ [EvStreamClose]) audio lang = Ok text ->
  lstrip text = (done ++ String element rest)%string ->
  accepted c
    (trace s ++ [EvStreamClose; EvTranscribe audio lang;
                 EvPrint ("Transcription: " ++ lstrip text)%string]) done ->
  kb_type c
    ((trace s ++ [EvStreamClose; EvTranscribe audio lang;
                  EvPrint ("Transcription: " ++ lstrip text)%string])
     ++ keystrokes done) element = Some e ->
  added s (Recorder._record_impl c tid s)
  = [EvStreamClose; EvTranscribe audio lang;
     EvPrint ("Transcription: " ++ lstrip text)%string]
    ++ keystrokes done
    ++ [EvPrint ("Error typing transcription: " ++ str e)%string].
Proof.
  intros Hth Hflag Hclose Haudio Hmodel Hstrip Hacc Hkb.
  apply added_exact.
  unfold Recorder._record_impl, Recorder.after_capture,
    SpeechTranscriber.transcribe.
  rewrite Hth, Hflag, Hclose, Haudio. simpl. rewrite Hmodel.
  match goal with
  | |- context [Recorder.type_transcription c (lstrip text) ?st] =>
      set (s2 := st)
  end.
  assert (Htrace2 : trace s2
                    = trace s ++ [EvStreamClose; EvTranscribe audio lang;
                                  EvPrint ("Transcription: "
                                           ++ lstrip text)%string]).
  { unfold s2. simpl. now rewrite <- app_assoc. }
  rewrite (type_transcription_rejected c (lstrip text) done element rest e
             s2 Hstrip).
  - change (trace (set_thread tid Finished
                     (log (keystrokes done
                           ++ [EvPrint ("Error typing transcription: "
                                        ++ str e)%string]) s2)))
      with (trace s2
            ++ keystrokes done
            ++ [EvPrint ("Error typing transcription: " ++ str e)%string]).
    rewrite Htrace2. now rewrite <- !app_assoc.
  - now rewrite Htrace2.
  - now rewrite Htrace2.
Qed.

(** C2 (amended).  No step of a pipeline thread, failing or not, changes
    the manager's flag: after any number of pipeline steps it is what it
    was.  It is [stop()], called by a gesture or by the deadline timer
    when it runs out, that brings the session to idle, and it always does.
    An exception of the keyboard controller never ends the thread: after an
    answer of the model the thread finishes normally, and when the
    controller raises at a character the trace of the step ends with the
    log line that carries the exception's message, after the keystrokes
    made before it. *)
Theorem C2_pipeline_keeps_flag (c : collaborators) (s : system) :
  (forall tids,
     manager_recording (run c (map Step tids) s) = manager_recording s) /\
  manager_recording (RecordingManager.stop s) = false /\
  (forall id,
     nth_error (timers s) id = Some Armed ->
     manager_recording (timer_fires id s) = false) /\
  (forall tid lang frames audio text,
     nth_error (threads s) tid = Some (Capturing lang frames) ->
     recorder_recording s = false ->
     stream_close c (trace s) = None ->
     Audio.audio_data_fp32 frames = Ok audio ->
     model_transcribe c (trace s ++ [EvStreamClose]) audio lang = Ok text ->
     nth_error (threads (Recorder._record_impl c tid s)) tid
     = Some Finished) /\
  (forall tid lang frames audio text done element rest e,
     nth_error (threads s) tid = Some (Capturing lang frames) ->
     recorder_recording s = false ->
     stream_close c (trace s) = None ->
     Audio.audio_data_fp32 frames = Ok audio ->
     model_transcribe c (trace s ++ [EvStreamClose]) audio lang = Ok text ->
     lstrip text = (done ++ String element rest)%string ->
     accepted c
       (trace s ++ [EvStreamClose; EvTranscribe audio lang;
                    EvPrint ("Transcription: " ++ lstrip text)%string])
       done ->
     kb_type c
       ((trace s ++ [EvStreamClose; EvTranscribe audio lang;
                     EvPrint ("Transcription: " ++ lstrip text)%string])
        ++ keystrokes done) element = Some e ->
     added s (Recorder._record_impl c tid s)
     = [EvStreamClose; EvTranscribe audio lang;
        EvPrint ("Transcription: " ++ lstrip text)%string]
       ++ keystrokes done
       ++ [EvPrint ("Error typing transcription: " ++ str e)%string]).
Proof.
  split; [intros tids; apply steps_keep_manager |].
  split; [apply stop_clears_recording |].
  split; [| split].
  - intros id Harmed. unfold timer_fires. rewrite Harmed.
    apply stop_clears_recording.
  - intros tid lang frames audio text. apply typing_never_crashes.
  - intros tid lang frames audio text done element rest e.
    apply emission_error_trace.
Qed.

(** A session whose transcription " hello" meets the keyboard controller
    that rejects the letter l: the thread finishes, and its last step logs
    the error after typing h and e. *)
Example emission_error_is_logged :
  let s := run failing_keyboard
             [Call Start; Step 0; Step 0; Step 0; Call Stop]
             (init None (Some 30%Q)) in
  let s' := Recorder._record_impl failing_keyboard 0 s in
  nth_error (threads s') 0 = Some Finished /\
  manager_recording s' = false /\
  added s s'
  = [EvStreamClose;
     EvTranscribe [Audio.to_float32 (-32768); Audio.to_float32 32767] None;
     EvPrint "Transcription: hello"]
    ++ keystrokes "he"
    ++ [EvPrint "Error typing transcription: invalid character"].
Proof. repeat split. Qed.

Example capture_error_until_deadline :
  let s := run no_microphone [Call Start; Step 0; Step 0]
             (init None (Some 30%Q)) in
  manager_recording s = true /\
  manager_recording (run no_microphone [Step 0; Step 0; Step 0] s) = true /\
  manager_recording (run no_microphone [TimerFires 0] s) = false.
Proof. repeat split. Qed.

(** ** Who writes which flag, and when *)

Lemma manager_start_trace (s : system) :
  manager_recording s = false ->
  added s (RecordingManager.start s)
  = [EvPrint "Listening..."; EvSetManagerRecording true;
     EvThreadStart (length (threads s))]
    ++ match max_time s with
       | Some interval => [EvTimerStart (length (timers s)) interval]
       | None => []
       end.
Proof.
  intros Hidle. apply added_exact.
  unfold RecordingManager.start. rewrite Hidle. simpl.
  destruct (max_time s); simpl; now rewrite <- !app_assoc.
Qed.

Lemma recorder_start_trace (lang : option string) (s : system) :
  added s (Recorder.start lang s) = [EvThreadStart (length (threads s))]
  /\ recorder_recording (Recorder.start lang s) = recorder_recording s.
Proof. split; [now apply added_exact | reflexivity]. Qed.

Lemma thread_first_step (c : collaborators) (tid : nat)
    (lang : option string) (s : system) :
  nth_error (threads s) tid = Some (Spawned lang) ->
  added s (Recorder._record_impl c tid s) = [EvSetRecorderRecording true]
  /\ recorder_recording (Recorder._record_impl c tid s) = true.
Proof.
  intros Hth. unfold Recorder._record_impl. rewrite Hth.
  split; [now apply added_exact | reflexivity].
Qed.

(** C1 (what the code does).  [RecordingManager.start] writes its flag
    before it starts the thread and the timer.  [Recorder.start] only
    starts the thread; [Recorder.recording] is written later, by the first
    step of that thread.  So a [stop()] followed by a [start()] between two
    tests of the first thread's loop leaves two capture loops running, and
    both transcriptions are typed; and a [stop()] that comes before the new
    thread's first step is overwritten, leaving a capture loop running
    under an idle manager with its timer cancelled. *)
Theorem C1_recorder_flag_written_late :
  (forall s,
     manager_recording (RecordingManager.start s) = true /\
     (manager_recording s = false ->
      exists spawns,
        added s (RecordingManager.start s)
        = [EvPrint "Listening..."; EvSetManagerRecording true] ++ spawns /\
        existsb is_thread_start spawns = true)) /\
  (forall lang s,
     added s (Recorder.start lang s) = [EvThreadStart (length (threads s))]
     /\ recorder_recording (Recorder.start lang s) = recorder_recording s) /\
  (forall c tid lang s,
     nth_error (threads s) tid = Some (Spawned lang) ->
     added s (Recorder._record_impl c tid s) = [EvSetRecorderRecording true])
  /\
  (let s := run (healthy " hi") restart_between_reads
              (init None (Some 30%Q)) in
   capture_loops s = 2 /\
   recorder_recording s = true /\
   typed (run (healthy " hi") [Call Stop; Step 0; Step 1] s)
   = [EvType "h"; EvType "i"; EvType "h"; EvType "i"]) /\
  (let s := run (healthy " hi") stop_before_thread_runs
              (init None (Some 30%Q)) in
   manager_recording s = false /\
   timers s = [Cancelled] /\
   recorder_recording s = true /\
   capture_loops s = 1).
Proof.
  split; [| split; [| split; [| split]]].
  - intros s. split; [apply start_sets_recording |].
    intros Hidle. rewrite (manager_start_trace s Hidle).
    eexists. split; [reflexivity | reflexivity].
  - apply recorder_start_trace.
  - intros c tid lang s Hth. exact (proj1 (thread_first_step c tid lang s Hth)).
  - vm_compute. auto.
  - vm_compute. auto.
Qed.

(** ** The listeners on the real manager *)

Example double_tap_starts_session :
  let after :=
    DoubleCommandKeyListener.listen
      [Press (Key "cmd_r") 100; Release (Key "cmd_r");
       Press (Key "cmd_r") (1003 # 10)]
      (DoubleCommandKeyListener.new, init None (Some 30%Q)) in
  manager_recording (snd after) = true /\
  threads (snd after) = [Spawned None] /\
  timers (snd after) = [Armed].
Proof. repeat split. Qed.

Example slow_second_tap_does_nothing :
  let after :=
    DoubleCommandKeyListener.listen
      [Press (Key "cmd_r") 100; Release (Key "cmd_r");
       Press (Key "cmd_r") (1005 # 10)]
      (DoubleCommandKeyListener.new, init None (Some 30%Q)) in
  snd after = init None (Some 30%Q).
Proof. reflexivity. Qed.

Example push_to_talk_session :
  let armed :=
    PushToTalkListener.listen
      [Press (Key "cmd_l") 100; Release (Key "cmd_l");
       Press (Key "cmd_l") (1002 # 10)]
      {| PushToTalkListener.listener := PushToTalkListener.new;
         PushToTalkListener.manager := init None None;
         PushToTalkListener.tones := [] |} in
  let released := PushToTalkListener.listen [Release (Key "cmd_l")] armed in
  manager_recording (PushToTalkListener.manager armed) = true /\
  PushToTalkListener.active (PushToTalkListener.listener armed) = true /\
  manager_recording (PushToTalkListener.manager released) = false /\
  PushToTalkListener.tones released = [300%Z; 600%Z].
Proof. repeat split. Qed.

Example chord_toggles_session :
  let chord := GlobalKeyListener.new (Key "ctrl") (Key "alt") in
  let down :=
    GlobalKeyListener.listen [Press (Key "ctrl") 1; Press (Key "alt") 2]
      (chord, init None None) in
  let third := GlobalKeyListener.listen [Press (KeyCode "x") 3] down in
  manager_recording (snd down) = true /\
  manager_recording (snd third) = false.
Proof. repeat split. Qed.

(** * Further properties of the code *)

(** ** [str.split] and [str.join] *)

Lemma split_not_nil (sep : ascii) (s : string) : split sep s <> [].
Proof.
  destruct s as [| ch rest]; simpl; [discriminate |].
  destruct (Ascii.eqb ch sep); [discriminate |].
  destruct (split sep rest); discriminate.
Qed.

Lemma split_length (sep : ascii) (s : string) :
  length (split sep s) = S (count sep s).
Proof.
  induction s as [| ch rest IH]; simpl; [reflexivity |].
  destruct (Ascii.eqb ch sep); simpl; [now rewrite IH |].
  destruct (split sep rest) as [| part parts] eqn:Hsp; simpl in *;
    [discriminate | exact IH].
Qed.

Lemma split_parts_clean (sep : ascii) (s : string) :
  Forall (fun part => count sep part = 0) (split sep s).
Proof.
  induction s as [| ch rest IH]; simpl; [now repeat constructor |].
  destruct (Ascii.eqb ch sep) eqn:Hch; [now constructor |].
  destruct (split sep rest) as [| part parts]; simpl.
  - repeat constructor. simpl. now rewrite Hch.
  - inversion IH; subst. constructor; [| assumption].
    simpl. now rewrite Hch.
Qed.

Lemma join_cons (sep : ascii) (part : string) (parts : list string) :
  parts <> [] ->
  join sep (part :: parts) = (part ++ String sep (join sep parts))%string.
Proof. destruct parts; [contradiction | reflexivity]. Qed.

Lemma join_cons_char (sep ch : ascii) (part : string)
    (parts : list string) :
  join sep (String ch part :: parts) = String ch (join sep (part :: parts)).
Proof. destruct parts; reflexivity. Qed.

(** [split] and [join] are inverse to each other: joining the parts of a
    string gives the string back, there is one part more than there are
    separators, no part contains the separator, and splitting a join of
    separator-free parts gives the parts back. *)
Lemma split_join_round_trip (sep : ascii) (s : string)
    (parts : list string) :
  join sep (split sep s) = s /\
  length (split sep s) = S (count sep s) /\
  Forall (fun part => count sep part = 0) (split sep s) /\
  (parts <> [] ->
   Forall (fun part => count sep part = 0) parts ->
   split sep (join sep parts) = parts).
Proof.
  split; [| split; [apply split_length | split; [apply split_parts_clean |]]].
  - induction s as [| ch rest IH]; simpl; [reflexivity |].
    destruct (Ascii.eqb ch sep) eqn:Hch.
    + apply Ascii.eqb_eq in Hch. subst ch.
      rewrite join_cons by apply split_not_nil. simpl. now rewrite IH.
    + destruct (split sep rest) as [| part rest'] eqn:Hsp.
      * now apply split_not_nil in Hsp.
      * rewrite join_cons_char. now rewrite IH.
  - intros Hne Hclean.
    induction parts as [| part rest IH]; [contradiction |].
    inversion Hclean as [| ? ? Hpart Hrest]; subst.
    destruct rest as [| part' rest'].
    + change (join sep [part]) with part. clear IH Hne Hclean Hrest.
      induction part as [| ch p IHp]; simpl in *; [reflexivity |].
      destruct (Ascii.eqb ch sep); [discriminate |].
      now rewrite IHp.
    + rewrite join_cons by discriminate.
      assert (IH' : split sep (join sep (part' :: rest')) = part' :: rest')
        by (apply IH; [discriminate | assumption]).
      clear IH Hne Hclean Hrest.
      induction part as [| ch p IHp]; simpl in *.
      * rewrite Ascii.eqb_refl. now rewrite IH'.
      * destruct (Ascii.eqb ch sep); [discriminate |].
        now rewrite IHp.
Qed.

(** ** The key combination *)

Section KeyCombination.
Variable keyboard_Key : string -> option pynput_key.

Lemma parse_two_parts (s n1 n2 : string) :
  split "+" s = [n1; n2] ->
  s = (n1 ++ String "+" n2)%string /\
  count "+" n1 = 0 /\ count "+" n2 = 0.
Proof.
  intros Hsp.
  destruct (split_join_round_trip "+" s []) as [Hjoin [_ [Hclean _]]].
  rewrite Hsp in Hjoin, Hclean.
  inversion Hclean as [| ? ? H1 Hrest]; subst.
  inversion Hrest as [| ? ? H2 _]; subst.
  repeat split; assumption.
Qed.

Lemma parse_key_combination_syntax (s : string) :
  ((exists keys, Cli.parse_key_combination keyboard_Key s = Ok keys)
   <-> count "+" s = 1) /\
  (count "+" s <> 1 ->
   exists e, Cli.parse_key_combination keyboard_Key s = Raise e).
Proof.
  pose proof (split_length "+" s) as Hlen.
  unfold Cli.parse_key_combination.
  destruct (split "+" s) as [| n1 [| n2 [| n3 rest]]]; simpl in Hlen;
    (split; [split |]);
    try (intros [keys Hk]; discriminate);
    try (intros Hc; rewrite Hc in Hlen; discriminate);
    try (intros _; eauto; lia); eauto.
  intros Hc. exfalso. apply Hc. lia.
Qed.

(** X2.  [parse_key_combination] succeeds exactly on the strings with one
    plus sign; any other string raises.  On success the string is
    [name1 + name2], neither name contains a plus sign, and the keys are
    the two names looked up in [keyboard.Key], with [KeyCode(char=name)]
    for a name that is no member.  Conversely every such pair of names is
    parsed back. *)
Theorem parse_key_combination_one_plus (s : string) :
  ((exists keys, Cli.parse_key_combination keyboard_Key s = Ok keys)
   <-> count "+" s = 1) /\
  (forall key1 key2,
     Cli.parse_key_combination keyboard_Key s = Ok (key1, key2) ->
     exists name1 name2,
       s = (name1 ++ String "+" name2)%string /\
       count "+" name1 = 0 /\ count "+" name2 = 0 /\
       key1 = Cli.key_of_name keyboard_Key name1 /\
       key2 = Cli.key_of_name keyboard_Key name2) /\
  (forall name1 name2,
     count "+" name1 = 0 -> count "+" name2 = 0 ->
     Cli.parse_key_combination keyboard_Key
       (name1 ++ String "+" name2)%string
     = Ok (Cli.key_of_name keyboard_Key name1,
           Cli.key_of_name keyboard_Key name2)).
Proof.
  split; [apply parse_key_combination_syntax | split].
  - unfold Cli.parse_key_combination. intros key1 key2.
    destruct (split "+" s) as [| n1 [| n2 [| n3 rest]]] eqn:Hsp;
      try discriminate.
    intros Hok. inversion Hok; subst.
    destruct (parse_two_parts s n1 n2 Hsp) as [Hs [H1 H2]].
    exists n1, n2. auto.
  - unfold Cli.parse_key_combination. intros name1 name2 H1 H2.
    destruct (split_join_round_trip "+" EmptyString [name1; name2])
      as [_ [_ [_ Hback]]].
    change (name1 ++ String "+" name2)%string
      with (join "+" [name1; name2]).
    rewrite Hback; [reflexivity | discriminate | now repeat constructor].
Qed.

End KeyCombination.

Example key_combinations :
  let pynput := fun name =>
    if String.eqb name "ctrl" then Some (Key "ctrl")
    else if String.eqb name "alt" then Some (Key "alt")
    else None in
  Cli.parse_key_combination pynput "ctrl+alt"
  = Ok (Key "ctrl", Key "alt") /\
  Cli.parse_key_combination pynput "ctrl+x" = Ok (Key "ctrl", KeyCode "x") /\
  Cli.parse_key_combination pynput "ctrl"
  = Raise (Exception "not enough values to unpack (expected 2, got 1)") /\
  Cli.parse_key_combination pynput "ctrl++"
  = Raise (Exception "too many values to unpack (expected 2)").
Proof. repeat split. Qed.

(** ** [parse_args] and the session language *)

Lemma any_not_en_false (languages : list string) :
  Cli.any_not_en languages = false
  <-> languages = repeat "en"%string (length languages).
Proof.
  unfold Cli.any_not_en.
  induction languages as [| lang rest IH]; simpl; [easy |].
  rewrite orb_false_iff, negb_false_iff, String.eqb_eq, IH.
  split.
  - intros [-> Hrest]. now rewrite <- Hrest.
  - intros Heq. inversion Heq as [[Hlang Hrest]].
    rewrite <- Hrest. auto.
Qed.

Lemma repeat_en_clean (n : nat) :
  Forall (fun part => count "," part = 0) (repeat "en"%string n).
Proof. induction n; simpl; now constructor. Qed.


(** X3.  With a model whose name does not end in [.en] every language
    argument is accepted.  With a [.en] model the arguments are accepted
    exactly when no language is given or the language argument is [en],
    possibly repeated with commas; anything else, the empty string
    included, raises.  Accepted arguments come back unchanged apart from
    the language, which is split at its commas. *)
Theorem parse_args_en_model (args : Cli.namespace string) :
  (endswith ".en" (Cli.model_name args) = false ->
   exists parsed, Cli.parse_args args = Ok parsed) /\
  (endswith ".en" (Cli.model_name args) = true ->
   ((exists parsed, Cli.parse_args args = Ok parsed)
    <-> (Cli.language args = None \/
         exists n,
           Cli.language args = Some (join "," (repeat "en"%string (S n)))))) /\
  (forall parsed,
     Cli.parse_args args = Ok parsed ->
     Cli.language parsed = option_map (split ",") (Cli.language args) /\
     Cli.model_name parsed = Cli.model_name args /\
     Cli.key_combination parsed = Cli.key_combination args /\
     Cli.k_double_cmd parsed = Cli.k_double_cmd args /\
     Cli.ptt parsed = Cli.ptt args /\
     Cli.max_time parsed = Cli.max_time args /\
     Cli.audio_file parsed = Cli.audio_file args).
Proof.
  unfold Cli.parse_args.
  split; [| split].
  - intros Hen. rewrite Hen. simpl. eauto.
  - intros Hen. rewrite Hen. simpl.
    destruct (Cli.language args) as [l |]; simpl.
    + destruct (Cli.any_not_en (split "," l)) eqn:Hany.
      * split; [intros [parsed Hp]; discriminate |].
        intros [Hnone | [n Hl]]; [discriminate |].
        exfalso.
        assert (Hsp : split "," l = repeat "en"%string (S n)).
        { inversion Hl as [Heq].
          destruct (split_join_round_trip "," EmptyString
                      (repeat "en"%string (S n))) as [_ [_ [_ Hback]]].
          apply Hback; [discriminate | apply repeat_en_clean]. }
        assert (Hfalse : Cli.any_not_en (repeat "en"%string (S n)) = false).
        { apply any_not_en_false. now rewrite repeat_length. }
        rewrite Hsp in Hany. congruence.
      * split; [| eauto]. intros _. right.
        apply any_not_en_false in Hany.
        pose proof (split_length "," l) as Hlen.
        destruct (split_join_round_trip "," l []) as [Hjoin _].
        exists (count "," l). rewrite Hlen in Hany. simpl in Hany.
        rewrite <- Hany. now rewrite Hjoin.
    + split; eauto.
  - intros parsed.
    destruct (endswith ".en" (Cli.model_name args)
              && match option_map (split ",") (Cli.language args) with
                 | Some ls => Cli.any_not_en ls
                 | None => false
                 end); [discriminate |].
    intros Hok. inversion Hok; subst. simpl. repeat split.
Qed.

Example endswith_en :
  endswith ".en" "tiny.en" = true /\ endswith ".en" "base" = false /\
  endswith ".en" "en" = false /\ endswith ".en" ".en" = true /\
  endswith ".en" "large.end" = false.
Proof. repeat split. Qed.

Example en_model_languages :
  let args := fun lang =>
    {| Cli.model_name := "base.en"; Cli.key_combination := "ctrl+alt";
       Cli.k_double_cmd := false; Cli.ptt := false;
       Cli.language := lang; Cli.max_time := 30%Q;
       Cli.audio_file := None |} in
  (exists parsed, Cli.parse_args (args (Some "en,en"%string)) = Ok parsed) /\
  Cli.parse_args (args (Some "en,fr"%string))
  = Raise (Exception "If using a .en model, language must be English.") /\
  Cli.parse_args (args (Some EmptyString))
  = Raise (Exception "If using a .en model, language must be English.").
Proof. repeat split. eexists. reflexivity. Qed.




(** ** Deadline timers *)

Lemma nth_error_update_armed (l : list timer_status) (i j : nat)
    (st : timer_status) :
  st <> Armed ->
  nth_error (update l i st) j = Some Armed ->
  nth_error l j = Some Armed /\ i <> j.
Proof.
  intros Hst. revert i j.
  induction l as [| x l IH]; intros [| i] [| j]; simpl; try discriminate;
    try (intros Heq; split; [exact Heq | discriminate]).
  - intros Heq. inversion Heq. contradiction.
  - intros Heq. destruct (IH i j Heq) as [Hj Hij]. split; [exact Hj | lia].
Qed.

Lemma nth_error_snoc (A : Type) (l : list A) (x y : A) (i : nat) :
  nth_error (l ++ [x]) i = Some y ->
  nth_error l i = Some y \/ (i = length l /\ x = y).
Proof.
  intros Hnth. destruct (Nat.lt_ge_cases i (length l)) as [Hlt | Hge].
  - left. now rewrite nth_error_app1 in Hnth.
  - right. rewrite nth_error_app2 in Hnth by assumption.
    destruct (i - length l) as [| k] eqn:Hk; simpl in Hnth.
    + inversion Hnth. split; [lia | reflexivity].
    + destruct k; discriminate.
Qed.

Lemma nth_error_snoc_last (A : Type) (l : list A) (x : A) :
  nth_error (l ++ [x]) (length l) = Some x.
Proof. now rewrite nth_error_app2, Nat.sub_diag. Qed.

Section Config.
Variable c : collaborators.

Lemma manager_keeps_config (f : call) (s : system) :
  max_time (apply_call f s) = max_time s.
Proof.
  assert (Hstart : max_time (RecordingManager.start s) = max_time s).
  { unfold RecordingManager.start.
    destruct (manager_recording s); [reflexivity |].
    simpl. destruct (max_time s) eqn:Hmax; simpl; now rewrite Hmax. }
  assert (Hstop : max_time (RecordingManager.stop s) = max_time s).
  { unfold RecordingManager.stop.
    destruct (manager_recording s); [| reflexivity].
    destruct (manager_timer s) as [id |]; simpl; [| reflexivity].
    unfold RecordingManager.timer_cancel.
    now destruct (nth_error (timers s) id) as [[| |] |]. }
  destruct f; simpl; try assumption.
  unfold RecordingManager.toggle. now destruct (manager_recording s).
Qed.

Lemma start_keeps_timer_invariant (s : system) :
  only_current_timer_armed s ->
  only_current_timer_armed (RecordingManager.start s).
Proof.
  intros Hinv. unfold RecordingManager.start.
  destruct (manager_recording s) eqn:Hrec; [exact Hinv |].
  assert (Hnone : forall id, nth_error (timers s) id <> Some Armed).
  { intros id Harmed. destruct (Hinv id Harmed). congruence. }
  simpl. destruct (max_time s) as [interval |]; intros id; simpl.
  - intros Harmed. apply nth_error_snoc in Harmed.
    destruct Harmed as [Hold | [-> _]]; [now apply Hnone in Hold | auto].
  - intros Harmed. now apply Hnone in Harmed.
Qed.

Lemma stop_disarms (s : system) :
  only_current_timer_armed s ->
  manager_recording s = true ->
  forall id, nth_error (timers (RecordingManager.stop s)) id <> Some Armed.
Proof.
  intros Hinv Hrec id. unfold RecordingManager.stop. rewrite Hrec.
  unfold RecordingManager.timer_cancel.
  destruct (manager_timer s) as [cur |] eqn:Hcur; simpl.
  - destruct (nth_error (timers s) cur) as [[| |] |] eqn:Hst; simpl.
    + intros Harmed.
      apply nth_error_update_armed in Harmed; [| discriminate].
      destruct Harmed as [Hold Hneq].
      destruct (Hinv id Hold) as [_ Hid]. congruence.
    + intros Harmed. destruct (Hinv id Harmed) as [_ Hid]. congruence.
    + intros Harmed. destruct (Hinv id Harmed) as [_ Hid]. congruence.
    + intros Harmed. destruct (Hinv id Harmed) as [_ Hid]. congruence.
  - intros Harmed. destruct (Hinv id Harmed) as [_ Hid]. congruence.
Qed.

Lemma stop_keeps_timer_invariant (s : system) :
  only_current_timer_armed s ->
  only_current_timer_armed (RecordingManager.stop s).
Proof.
  intros Hinv.
  destruct (manager_recording s) eqn:Hrec.
  - intros id Harmed. now apply (stop_disarms s Hinv Hrec) in Harmed.
  - unfold RecordingManager.stop. now rewrite Hrec.
Qed.

Lemma exec_keeps_timer_invariant (a : action) (s : system) :
  only_current_timer_armed s ->
  only_current_timer_armed (exec c a s).
Proof.
  intros Hinv. destruct a as [[| |] | tid | id]; simpl.
  - now apply start_keeps_timer_invariant.
  - now apply stop_keeps_timer_invariant.
  - unfold RecordingManager.toggle. destruct (manager_recording s).
    + now apply stop_keeps_timer_invariant.
    + now apply start_keeps_timer_invariant.
  - destruct (record_impl_keeps_manager c tid s) as [Hr [Ht Hts]].
    intros id'. rewrite Hr, Ht, Hts. apply Hinv.
  - unfold timer_fires.
    destruct (nth_error (timers s) id) as [[| |] |] eqn:Hst; try exact Hinv.
    apply stop_keeps_timer_invariant.
    intros id' Harmed. simpl in Harmed.
    apply nth_error_update_armed in Harmed; [| discriminate].
    destruct Harmed as [Hold Hneq].
    destruct (Hinv id Hst) as [_ H1]. destruct (Hinv id' Hold) as [_ H2].
    congruence.
Qed.

Lemma run_keeps_timer_invariant (schedule : list action) (s : system) :
  only_current_timer_armed s ->
  only_current_timer_armed (run c schedule s).
Proof.
  revert s. induction schedule as [| a schedule IH]; intros s Hinv;
    [exact Hinv |].
  unfold run in *. simpl. apply IH. now apply exec_keeps_timer_invariant.
Qed.

End Config.

Lemma init_timer_invariant (lang : option string) (limit : option Q) :
  only_current_timer_armed (init lang limit).
Proof. intros [| id]; discriminate. Qed.

Lemma apply_call_keeps_timer_invariant (f : call) (s : system) :
  only_current_timer_armed s ->
  only_current_timer_armed (apply_call f s).
Proof.
  intros Hinv. destruct f; simpl.
  - now apply start_keeps_timer_invariant.
  - now apply stop_keeps_timer_invariant.
  - unfold RecordingManager.toggle. destruct (manager_recording s).
    + now apply stop_keeps_timer_invariant.
    + now apply start_keeps_timer_invariant.
Qed.

Lemma apply_call_keeps_deadline (f : call) (s : system) :
  max_time s <> None ->
  deadline_armed s -> deadline_armed (apply_call f s).
Proof.
  intros Hmax Hinv.
  assert (Hstart : deadline_armed (RecordingManager.start s)).
  { unfold RecordingManager.start.
    destruct (manager_recording s) eqn:Hrec; [exact Hinv |].
    simpl. destruct (max_time s) as [interval |]; [| contradiction].
    intros _. exists (length (timers s)). simpl.
    split; [reflexivity | apply nth_error_snoc_last]. }
  assert (Hstop : deadline_armed (RecordingManager.stop s)).
  { intros Hrec. rewrite stop_clears_recording in Hrec. discriminate. }
  destruct f; simpl; try assumption.
  unfold RecordingManager.toggle. now destruct (manager_recording s).
Qed.

(** X6.  Calls made one after the other, with no deadline running out in
    between: after any sequence of [start()] / [stop()] / [toggle()] calls
    on a fresh manager, a timer that was started and not cancelled is the
    manager's current timer and the manager is recording.  So there is
    never more than one such timer, every [stop()] has cancelled the
    deadline of the session it ends, and with a maximum time configured a
    recording manager always holds its own uncancelled timer. *)
Theorem calls_keep_one_timer (lang : option string) (limit : option Q)
    (fs : list call) :
  let s := run_calls fs (init lang limit) in
  (forall id,
     nth_error (timers s) id = Some Armed ->
     manager_recording s = true /\ manager_timer s = Some id) /\
  (forall id1 id2,
     nth_error (timers s) id1 = Some Armed ->
     nth_error (timers s) id2 = Some Armed ->
     id1 = id2) /\
  (manager_recording s = false ->
   forall id, nth_error (timers s) id <> Some Armed) /\
  (limit <> None ->
   manager_recording s = true ->
   exists id,
     manager_timer s = Some id /\ nth_error (timers s) id = Some Armed).
Proof.
  cbn zeta.
  assert (Hgen : forall s,
            only_current_timer_armed s ->
            (max_time s <> None -> deadline_armed s) ->
            max_time s = limit ->
            only_current_timer_armed (run_calls fs s) /\
            (limit <> None -> deadline_armed (run_calls fs s))).
  { induction fs as [| f fs IH]; intros s Hinv Hdead Hmax.
    - split; [exact Hinv |]. intros Hl. apply Hdead. congruence.
    - unfold run_calls in *. simpl. apply IH.
      + now apply apply_call_keeps_timer_invariant.
      + intros Hm. rewrite manager_keeps_config in Hm.
        apply apply_call_keeps_deadline; auto.
      + now rewrite manager_keeps_config. }
  destruct (Hgen (init lang limit)) as [Hinv Hdead].
  - apply init_timer_invariant.
  - intros _ Hrec. discriminate.
  - reflexivity.
  - split; [exact Hinv | split; [| split]].
    + intros id1 id2 H1 H2.
      destruct (Hinv id1 H1) as [_ E1]. destruct (Hinv id2 H2) as [_ E2].
      congruence.
    + intros Hidle id Harmed. destruct (Hinv id Harmed) as [Hrec _].
      congruence.
    + exact Hdead.
Qed.

Example gestures_and_timers :
  let s := run_calls [Start; Toggle; Toggle; Start; Stop; Toggle]
             (init None (Some 30%Q)) in
  timers s = [Cancelled; Cancelled; Armed] /\
  manager_timer s = Some 2 /\ manager_recording s = true.
Proof. repeat split. Qed.

(** ** Threads per session *)

Lemma start_threads (s : system) :
  threads (RecordingManager.start s)
  = if manager_recording s then threads s
    else threads s ++ [Spawned (language s)].
Proof.
  unfold RecordingManager.start.
  destruct (manager_recording s); [reflexivity |].
  simpl. now destruct (max_time s).
Qed.

Lemma stop_threads (s : system) :
  threads (RecordingManager.stop s) = threads s.
Proof.
  unfold RecordingManager.stop.
  destruct (manager_recording s); [| reflexivity].
  destruct (manager_timer s) as [id |]; simpl; [| reflexivity].
  unfold RecordingManager.timer_cancel.
  now destruct (nth_error (timers s) id) as [[| |] |].
Qed.

Lemma apply_call_threads (f : call) (s : system) :
  length (threads (apply_call f s))
  = length (threads s)
    + (if negb (manager_recording s)
          && Spec.transition (manager_recording s) f
       then 1 else 0).
Proof.
  destruct (manager_recording s) eqn:Hrec; destruct f; simpl;
    unfold RecordingManager.toggle;
    rewrite ?Hrec, ?start_threads, ?stop_threads, ?Hrec, ?length_app;
    simpl; lia.
Qed.

(** X8.  A sequence of [start()] / [stop()] / [toggle()] calls spawns
    exactly one capture thread for every call that takes the session from
    idle to recording, and none for the calls that change nothing or stop;
    calling [start()] twice, or [stop()] twice, is the same as calling it
    once. *)
Theorem one_thread_per_session (fs : list call) (s : system) :
  length (threads (run_calls fs s))
  = length (threads s) + sessions_started fs (manager_recording s) /\
  RecordingManager.start (RecordingManager.start s)
  = RecordingManager.start s /\
  RecordingManager.stop (RecordingManager.stop s)
  = RecordingManager.stop s.
Proof.
  split; [| split].
  - revert s. induction fs as [| f fs IH]; intros s; simpl; [lia |].
    unfold run_calls in *. simpl. rewrite IH.
    rewrite apply_call_threads, apply_call_transition. lia.
  - pose proof (start_sets_recording s) as Hrec.
    unfold RecordingManager.start at 1. now rewrite Hrec.
  - pose proof (stop_clears_recording s) as Hrec.
    unfold RecordingManager.stop at 1. now rewrite Hrec.
Qed.

(** ** The capture loop *)

Lemma update_twice (A : Type) (l : list A) (i : nat) (x y : A) :
  update (update l i x) i y = update l i y.
Proof.
  revert i. induction l as [| z l IH]; intros [| i]; simpl;
    try reflexivity. now rewrite IH.
Qed.

Lemma update_same (A : Type) (l : list A) (i : nat) (x : A) :
  nth_error l i = Some x -> update l i x = l.
Proof.
  revert i. induction l as [| z l IH]; intros [| i]; simpl;
    try discriminate.
  - intros Heq. now inversion Heq.
  - intros Hnth. now rewrite IH.
Qed.

Lemma set_thread_log (tid : nat) (th : thread) (evs : list event)
    (s : system) :
  log evs (set_thread tid th s) = set_thread tid th (log evs s).
Proof. reflexivity. Qed.

Lemma set_thread_twice (tid : nat) (a b : thread) (s : system) :
  set_thread tid a (set_thread tid b s) = set_thread tid a s.
Proof. unfold set_thread, with_threads. simpl. now rewrite update_twice. Qed.

Lemma set_thread_same (tid : nat) (th : thread) (s : system) :
  nth_error (threads s) tid = Some th -> set_thread tid th s = s.
Proof.
  intros Hnth. unfold set_thread, with_threads.
  rewrite (update_same _ _ _ _ Hnth). now destruct s.
Qed.

Lemma chunks_read_app (a b : list event) :
  chunks_read (a ++ b) = chunks_read a ++ chunks_read b.
Proof.
  induction a as [| ev a IH]; simpl; [reflexivity |].
  destruct ev; simpl; now rewrite ?IH.
Qed.

Lemma chunks_read_reads (chunks : list Audio.bytes) :
  chunks_read (map EvStreamRead chunks) = chunks.
Proof. induction chunks as [| ch l IH]; simpl; now rewrite ?IH. Qed.

Lemma typed_text_app (a b : list event) :
  typed_text (a ++ b) = (typed_text a ++ typed_text b)%string.
Proof.
  induction a as [| ev a IH]; simpl; [reflexivity |].
  destruct ev; simpl; now rewrite ?IH.
Qed.

Lemma typed_text_reads (chunks : list Audio.bytes) :
  typed_text (map EvStreamRead chunks) = EmptyString.
Proof. induction chunks as [| ch l IH]; simpl; now rewrite ?IH. Qed.

Lemma typed_text_keystrokes (text : string) :
  typed_text (keystrokes text) = text.
Proof. induction text as [| ch t IH]; simpl; now rewrite ?IH. Qed.

Lemma chunks_read_keystrokes (text : string) :
  chunks_read (keystrokes text) = [].
Proof. induction text as [| ch t IH]; simpl; now rewrite ?IH. Qed.

Section CaptureLoop.
Variable c : collaborators.
Variable P : Audio.bytes -> Prop.
Hypothesis reads :
  forall history, exists data, stream_read c history = Ok data /\ P data.

Lemma capture_turns (tid : nat) (lang : option string) (n : nat) :
  forall (s : system) (frames : list Audio.bytes),
    nth_error (threads s) tid = Some (Capturing lang frames) ->
    recorder_recording s = true ->
    exists chunks,
      length chunks = n /\ Forall P chunks /\
      run c (repeat (Step tid) n) s
      = set_thread tid (Capturing lang (frames ++ chunks))
          (log (map EvStreamRead chunks) s).
Proof.
  induction n as [| n IH]; intros s frames Hth Hflag.
  - exists []. repeat split; [constructor |].
    simpl. rewrite app_nil_r, log_nil. symmetry.
    now apply set_thread_same.
  - destruct (reads (trace s)) as [data [Hread Hdata]].
    assert (Hstep : Recorder._record_impl c tid s
                    = set_thread tid (Capturing lang (frames ++ [data]))
                        (log [EvStreamRead data] s)).
    { unfold Recorder._record_impl. now rewrite Hth, Hflag, Hread. }
    destruct (IH (Recorder._record_impl c tid s) (frames ++ [data]))
      as [chunks [Hlen [Hall Hrun]]].
    + rewrite Hstep. simpl.
      now apply nth_error_update with (x := Capturing lang frames).
    + now rewrite Hstep.
    + exists (data :: chunks). split; [simpl; now rewrite Hlen |].
      split; [now constructor |].
      unfold run in *. simpl repeat. simpl fold_left.
      rewrite Hrun, Hstep.
      rewrite set_thread_log, set_thread_twice, log_log.
      now rewrite <- app_assoc.
Qed.

End CaptureLoop.

(** X9.  While [Recorder.recording] is set and the stream delivers data,
    [n] turns of a thread's capture loop read exactly [n] chunks and append
    them to the thread's frames in the order they were read; the loop goes
    on, and the manager's and the recorder's flags are untouched. *)
Theorem capture_loop_appends (c : collaborators) (tid : nat)
    (lang : option string) (frames : list Audio.bytes) (n : nat)
    (s : system) :
  (forall history, exists data, stream_read c history = Ok data) ->
  nth_error (threads s) tid = Some (Capturing lang frames) ->
  recorder_recording s = true ->
  let s' := run c (repeat (Step tid) n) s in
  nth_error (threads s') tid
  = Some (Capturing lang (frames ++ chunks_read (added s s'))) /\
  length (chunks_read (added s s')) = n /\
  added s s' = map EvStreamRead (chunks_read (added s s')) /\
  recorder_recording s' = true /\
  manager_recording s' = manager_recording s.
Proof.
  intros Hreads Hth Hflag. cbn zeta.
  destruct (capture_turns c (fun _ => True)) with
    (tid := tid) (lang := lang) (n := n) (s := s) (frames := frames)
    as [chunks [Hlen [_ Hrun]]]; try assumption.
  { intros history. destruct (Hreads history) as [data Hd]. eauto. }
  rewrite Hrun.
  assert (Hadded : added s (set_thread tid (Capturing lang (frames ++ chunks))
                              (log (map EvStreamRead chunks) s))
                   = map EvStreamRead chunks)
    by now apply added_exact.
  rewrite Hadded, chunks_read_reads.
  repeat split; try assumption.
  simpl. now apply nth_error_update with (x := Capturing lang frames).
Qed.

Lemma capture_loop_appends_witness :
  let s := run (healthy " hi") [Call Start; Step 0; Step 0]
             (init None None) in
  let s' := run (healthy " hi") (repeat (Step 0) 3) s in
  nth_error (threads s') 0 = Some (Capturing None [a_chunk; a_chunk; a_chunk]).
Proof.
  exact (proj1
    (capture_loop_appends (healthy " hi") 0 None [] 3
       (run (healthy " hi") [Call Start; Step 0; Step 0] (init None None))
       (fun history => ex_intro _ a_chunk eq_refl) eq_refl eq_refl)).
Defined.

(** ** A whole session *)

Lemma whole_samples_even (frames : list Audio.bytes) :
  Forall (fun chunk => Nat.even (length chunk) = true) frames ->
  exists audio, Audio.audio_data_fp32 frames = Ok audio.
Proof.
  intros Hall. unfold Audio.audio_data_fp32, Audio.frombuffer_int16.
  rewrite join_even; [eauto |].
  eapply Forall_impl; [| exact Hall].
  intros chunk Hev. now apply Nat.even_spec.
Qed.

Lemma after_loop_success (c : collaborators) (tid : nat)
    (lang : option string) (frames : list Audio.bytes) (s : system) :
  never_fails c ->
  Forall (fun chunk => Nat.even (length chunk) = true) frames ->
  nth_error (threads s) tid = Some (Capturing lang frames) ->
  recorder_recording s = false ->
  exists audio text,
    Audio.audio_data_fp32 frames = Ok audio /\
    model_transcribe c (trace s ++ [EvStreamClose]) audio lang = Ok text /\
    Recorder._record_impl c tid s
    = set_thread tid Finished
        (log ([EvStreamClose; EvTranscribe audio lang;
               EvPrint ("Transcription: " ++ lstrip text)%string]
              ++ emitted (lstrip text)) s).
Proof.
  intros [_ [_ [Hclose [Hmodel Hkb]]]] Hall Hth Hflag.
  destruct (whole_samples_even frames Hall) as [audio Haudio].
  destruct (Hmodel (trace s ++ [EvStreamClose]) audio lang) as [text Htext].
  exists audio, text. split; [exact Haudio | split; [exact Htext |]].
  unfold Recorder._record_impl, Recorder.after_capture,
    SpeechTranscriber.transcribe.
  rewrite Hth, Hflag, Hclose, Haudio. simpl. rewrite Htext.
  f_equal. unfold Recorder.type_transcription, emitted.
  destruct (lstrip text) as [| ch rest] eqn:Hstrip.
  - rewrite !log_log. reflexivity.
  - rewrite (type_elements_all c _ _ Hkb), !log_log.
    reflexivity.
Qed.

Lemma append_empty (s : string) : (s ++ EmptyString)%string = s.
Proof. induction s as [| ch s IH]; simpl; now rewrite ?IH. Qed.

Lemma typed_text_emitted (t : string) : typed_text (emitted t) = t.
Proof.
  destruct t as [| ch rest]; [reflexivity |].
  unfold emitted. rewrite typed_text_app, typed_text_keystrokes.
  simpl typed_text. now rewrite append_empty.
Qed.

Lemma chunks_read_emitted (t : string) : chunks_read (emitted t) = [].
Proof.
  destruct t as [| ch rest]; [reflexivity |].
  unfold emitted. now rewrite chunks_read_app, chunks_read_keystrokes.
Qed.

(** X10.  When nothing fails, the step after the loop closes the stream,
    then hands the model the conversion of exactly the frames the thread
    captured, then logs the transcription, then types it: in this order
    and nothing else.  What is typed is the model's answer without its
    leading whitespace, so an answer of whitespace only types nothing. *)
Theorem pipeline_order (c : collaborators) (tid : nat)
    (lang : option string) (frames : list Audio.bytes) (s : system) :
  never_fails c ->
  Forall (fun chunk => Nat.even (length chunk) = true) frames ->
  nth_error (threads s) tid = Some (Capturing lang frames) ->
  recorder_recording s = false ->
  let s' := Recorder._record_impl c tid s in
  exists audio text,
    Audio.audio_data_fp32 frames = Ok audio /\
    model_transcribe c (trace s ++ [EvStreamClose]) audio lang = Ok text /\
    added s s'
    = [EvStreamClose; EvTranscribe audio lang;
       EvPrint ("Transcription: " ++ lstrip text)%string]
      ++ emitted (lstrip text) /\
    typed_text (added s s') = lstrip text /\
    nth_error (threads s') tid = Some Finished.
Proof.
  intros Hc Hall Hth Hflag. cbn zeta.
  destruct (after_loop_success c tid lang frames s Hc Hall Hth Hflag)
    as [audio [text [Haudio [Htext Hstep]]]].
  exists audio, text. rewrite Hstep.
  assert (Hadded :
    added s (set_thread tid Finished
               (log ([EvStreamClose; EvTranscribe audio lang;
                      EvPrint ("Transcription: " ++ lstrip text)%string]
                     ++ emitted (lstrip text)) s))
    = [EvStreamClose; EvTranscribe audio lang;
       EvPrint ("Transcription: " ++ lstrip text)%string]
      ++ emitted (lstrip text)) by now apply added_exact.
  rewrite Hadded. repeat split; try assumption.
  - simpl. apply typed_text_emitted.
  - simpl. now apply nth_error_update with (x := Capturing lang frames).
Qed.

Lemma healthy_never_fails (text : string) : never_fails (healthy text).
Proof.
  repeat split; simpl; eauto.
Qed.

Lemma pipeline_order_witness :
  let s := run (healthy "   ") [Call Start; Step 0; Step 0; Step 0; Call Stop]
             (init None None) in
  exists audio text,
    Audio.audio_data_fp32 [a_chunk] = Ok audio /\
    text = "   "%string /\
    typed_text (added s (Recorder._record_impl (healthy "   ") 0 s))
    = EmptyString.
Proof.
  cbn zeta.
  destruct (pipeline_order (healthy "   ") 0 None [a_chunk]
              (run (healthy "   ")
                 [Call Start; Step 0; Step 0; Step 0; Call Stop]
                 (init None None))
              (healthy_never_fails "   ")
              (Forall_cons a_chunk
                 (eq_refl : Nat.even (length a_chunk) = true)
                 (Forall_nil _)) eq_refl eq_refl)
    as [audio [text [Haudio [Htext [_ [Htyped _]]]]]].
  exists audio, text. split; [exact Haudio |].
  simpl in Htext. inversion Htext; subst text.
  split; [reflexivity | exact Htyped].
Defined.

Lemma session_opened (c : collaborators) (lang : option string)
    (limit : option Q) :
  (forall history, pa_open c history = None) ->
  let s := run c [Call Start; Step 0; Step 0] (init lang limit) in
  nth_error (threads s) 0 = Some (Capturing lang []) /\
  recorder_recording s = true /\
  manager_recording s = true /\
  chunks_read (trace s) = [] /\
  typed_text (trace s) = EmptyString.
Proof.
  intros Hopen. cbn zeta.
  unfold run. simpl fold_left.
  unfold RecordingManager.start, Recorder._record_impl.
  destruct limit as [interval |]; simpl; rewrite Hopen; simpl;
    repeat split.
Qed.

Lemma stop_effect (s : system) :
  manager_recording s = true ->
  exists evs,
    trace (RecordingManager.stop s) = trace s ++ evs /\
    chunks_read evs = [] /\
    typed_text evs = EmptyString /\
    threads (RecordingManager.stop s) = threads s /\
    recorder_recording (RecordingManager.stop s) = false /\
    manager_recording (RecordingManager.stop s) = false.
Proof.
  intros Hrec. unfold RecordingManager.stop. rewrite Hrec.
  destruct (manager_timer s) as [id |]; simpl.
  - unfold RecordingManager.timer_cancel.
    destruct (nth_error (timers s) id) as [[| |] |]; simpl;
      eexists; (split; [rewrite <- !app_assoc; reflexivity |]);
      repeat split.
  - eexists; (split; [rewrite <- !app_assoc; reflexivity |]);
      repeat split.
Qed.

(** X11.  One uninterrupted session with collaborators that do not fail:
    after [start()], the thread's first two steps, [n] turns of the
    capture loop, [stop()] and the thread's last step, exactly [n] chunks
    were read, the model was called once on their conversion, what was
    typed is the model's answer without its leading whitespace, the thread
    has finished, both flags are cleared and no timer is left that can
    fire. *)
Theorem uninterrupted_session (c : collaborators) (lang : option string)
    (limit : option Q) (n : nat) :
  never_fails c ->
  let s := run c (session 0 n) (init lang limit) in
  exists audio text history,
    length (chunks_read (trace s)) = n /\
    Audio.audio_data_fp32 (chunks_read (trace s)) = Ok audio /\
    In (EvTranscribe audio lang) (trace s) /\
    model_transcribe c history audio lang = Ok text /\
    typed_text (trace s) = lstrip text /\
    nth_error (threads s) 0 = Some Finished /\
    manager_recording s = false /\
    recorder_recording s = false /\
    (forall id, nth_error (timers s) id <> Some Armed).
Proof.
  intros Hc. cbn zeta.
  pose proof Hc as [Hopen [Hreads _]].
  unfold session, run. rewrite !fold_left_app.
  fold (run c [Call Start; Step 0; Step 0] (init lang limit)).
  set (s1 := run c [Call Start; Step 0; Step 0] (init lang limit)).
  destruct (session_opened c lang limit Hopen)
    as [Hth1 [Hflag1 [Hrec1 [Hchunks1 Htyped1]]]].
  fold s1 in Hth1, Hflag1, Hrec1, Hchunks1, Htyped1.
  fold (run c (repeat (Step 0) n) s1).
  destruct (capture_turns c (fun chunk => Nat.even (length chunk) = true)
              Hreads 0 lang n s1 [] Hth1 Hflag1)
    as [chunks [Hlen [Heven Hrun]]].
  simpl app in Hrun. rewrite Hrun.
  set (s2 := set_thread 0 (Capturing lang chunks)
               (log (map EvStreamRead chunks) s1)).
  assert (Hinv2 : only_current_timer_armed s2).
  { unfold s2. rewrite <- Hrun.
    apply run_keeps_timer_invariant. unfold s1.
    apply run_keeps_timer_invariant. apply init_timer_invariant. }
  assert (Hrec2 : manager_recording s2 = true) by exact Hrec1.
  simpl fold_left.
  destruct (stop_effect s2 Hrec2)
    as [evs [Htrace3 [Hchunks3 [Htyped3 [Hth3 [Hflag3 Hrec3]]]]]].
  pose proof (stop_disarms s2 Hinv2 Hrec2) as Hdisarmed.
  set (s3 := RecordingManager.stop s2) in *.
  assert (Hthread3 : nth_error (threads s3) 0 = Some (Capturing lang chunks)).
  { rewrite Hth3.
    exact (nth_error_update _ (threads s1) 0 (Capturing lang [])
             (Capturing lang chunks) Hth1). }
  destruct (after_loop_success c 0 lang chunks s3 Hc Heven Hthread3 Hflag3)
    as [audio [text [Haudio [Htext Hstep]]]].
  exists audio, text, (trace s3 ++ [EvStreamClose]).
  rewrite Hstep.
  assert (Htrace :
    trace (set_thread 0 Finished
             (log ([EvStreamClose; EvTranscribe audio lang;
                    EvPrint ("Transcription: " ++ lstrip text)%string]
                   ++ emitted (lstrip text)) s3))
    = trace s1 ++ map EvStreamRead chunks ++ evs
      ++ [EvStreamClose; EvTranscribe audio lang;
          EvPrint ("Transcription: " ++ lstrip text)%string]
      ++ emitted (lstrip text)).
  { simpl trace. rewrite Htrace3. unfold s2. simpl trace.
    now rewrite <- !app_assoc. }
  rewrite Htrace.
  assert (Hchunks :
    chunks_read (trace s1 ++ map EvStreamRead chunks ++ evs
                 ++ [EvStreamClose; EvTranscribe audio lang;
                     EvPrint ("Transcription: " ++ lstrip text)%string]
                 ++ emitted (lstrip text)) = chunks).
  { rewrite !chunks_read_app, Hchunks1, chunks_read_reads, Hchunks3,
      chunks_read_emitted. simpl. now rewrite app_nil_r. }
  rewrite Hchunks.
  repeat split; try assumption.
  - apply in_or_app. right. apply in_or_app. right.
    apply in_or_app. right. simpl. auto.
  - rewrite !typed_text_app, Htyped1, typed_text_reads, Htyped3,
      typed_text_emitted. reflexivity.
  - exact (nth_error_update _ (threads s3) 0 (Capturing lang chunks)
             Finished Hthread3).
Qed.

Lemma uninterrupted_session_witness :
  exists audio text history,
    length (chunks_read (trace (run (healthy " hi") (session 0 2)
                                  (init None (Some 30%Q))))) = 2 /\
    model_transcribe (healthy " hi") history audio None = Ok text /\
    typed_text (trace (run (healthy " hi") (session 0 2)
                         (init None (Some 30%Q)))) = lstrip text.
Proof.
  destruct (uninterrupted_session (healthy " hi") None (Some 30%Q) 2
              (healthy_never_fails " hi"))
    as [audio [text [history [H1 [_ [_ [H4 [H5 _]]]]]]]].
  exists audio, text, history. auto.
Defined.

(** ** More on the chord listener *)

Section ChordMore.
Context {M : Type} `{recording_manager M}.
Import GlobalKeyListener.

(** X12.  A chord whose two keys are the same key (as [a+a], or two names
    of one key) can never be completed: the second flag is never set, so
    no sequence of key events ever reaches the manager. *)
Theorem same_key_chord_never_toggles (k1 k2 : pynput_key)
    (events : list key_event) (m : M) :
  key_eqb k1 k2 = true ->
  snd (listen events (new k1 k2, m)) = m /\
  key2_pressed (fst (listen events (new k1 k2, m))) = false.
Proof.
  intros Hsame. apply key_eqb_eq in Hsame. subst k2.
  assert (Hgen : forall self,
            key1 self = k1 -> key2 self = k1 -> key2_pressed self = false ->
            snd (listen events (self, m)) = m /\
            key2_pressed (fst (listen events (self, m))) = false).
  { induction events as [| ev events IH]; intros self H1 H2 Hup;
      [now split |].
    unfold listen in *. simpl fold_left.
    destruct ev as [k now | k]; simpl handle.
    - unfold on_key_press. rewrite H1, H2.
      destruct (key_eqb k k1) eqn:Hk; simpl; rewrite Hup, ?andb_false_r;
        apply IH; simpl; auto.
    - unfold on_key_release. rewrite H1, H2.
      destruct (key_eqb k k1) eqn:Hk; apply IH; simpl; auto. }
  now apply Hgen.
Qed.

End ChordMore.

Lemma same_key_chord_never_toggles_witness :
  snd (GlobalKeyListener.listen
         [Press (KeyCode "a") 1; Press (KeyCode "a") 2; Release (KeyCode "a")]
         (GlobalKeyListener.new (KeyCode "a") (KeyCode "a"),
          init None None))
  = init None None.
Proof.
  exact (proj1 (same_key_chord_never_toggles (KeyCode "a") (KeyCode "a")
                  [Press (KeyCode "a") 1; Press (KeyCode "a") 2;
                   Release (KeyCode "a")]
                  (init None None) eq_refl)).
Defined.

Section ChordRepeat.
Context {M : Type} `{recording_manager M}.
Import GlobalKeyListener.

(** X13.  While both keys of the chord are down, every further press
    event, of whatever key, calls [toggle()] once more: [n] press events
    (the repeats a held key produces, for instance) give [n] calls. *)
Theorem held_chord_toggles_on_every_press (self : t)
    (events : list key_event) (m : spy M) :
  key1_pressed self = true ->
  key2_pressed self = true ->
  forallb is_press events = true ->
  calls (snd (listen events (self, m)))
  = calls m ++ repeat Toggle (length events) /\
  key1_pressed (fst (listen events (self, m))) = true /\
  key2_pressed (fst (listen events (self, m))) = true.
Proof.
  revert self m.
  induction events as [| ev events IH]; intros self m H1 H2 Hpress.
  - simpl. now rewrite app_nil_r.
  - simpl in Hpress. apply andb_true_iff in Hpress.
    destruct Hpress as [Hev Hrest].
    destruct ev as [k now | k]; [| discriminate].
    unfold listen in *. simpl fold_left. simpl handle.
    assert (Hstep : exists self',
              on_key_press self k m = (self', toggle m) /\
              key1_pressed self' = true /\ key2_pressed self' = true).
    { unfold on_key_press.
      destruct (key_eqb k (key1 self)); [| destruct (key_eqb k (key2 self))];
        simpl; rewrite ?H1, ?H2; simpl; eexists; repeat split;
        simpl; auto. }
    destruct Hstep as [self' [Heq [H1' H2']]]. rewrite Heq.
    destruct (IH self' (toggle m) H1' H2' Hrest) as [Hcalls Hflags].
    split; [| exact Hflags].
    rewrite Hcalls. simpl. now rewrite <- app_assoc.
Qed.

End ChordRepeat.

Lemma held_chord_toggles_on_every_press_witness :
  let held := {| GlobalKeyListener.key1 := Key "ctrl";
                 GlobalKeyListener.key2 := Key "alt";
                 GlobalKeyListener.key1_pressed := true;
                 GlobalKeyListener.key2_pressed := true |} in
  let after :=
    GlobalKeyListener.listen
      [Press (Key "alt") 1; Press (Key "alt") 2; Press (Key "alt") 3]
      (held, {| inner := init None None; calls := [] |}) in
  calls (snd after) = [Toggle; Toggle; Toggle] /\
  manager_recording (inner (snd after)) = true.
Proof.
  split; [| reflexivity].
  exact (proj1 (held_chord_toggles_on_every_press
                  {| GlobalKeyListener.key1 := Key "ctrl";
                     GlobalKeyListener.key2 := Key "alt";
                     GlobalKeyListener.key1_pressed := true;
                     GlobalKeyListener.key2_pressed := true |}
                  [Press (Key "alt") 1; Press (Key "alt") 2;
                   Press (Key "alt") 3]
                  {| inner := init None None; calls := [] |}
                  eq_refl eq_refl eq_refl)).
Defined.

(** ** The call log of the push-to-talk listener *)

Lemma alternates_snoc (cs : list call) :
  forall (b : bool) (f : call),
    alternates b cs = true ->
    alternates b (cs ++ [f])
    = alternates (if Nat.odd (length cs) then negb b else b) [f].
Proof.
  induction cs as [| c cs IH]; intros b f Halt; [reflexivity |].
  simpl length. rewrite Nat.odd_succ, <- Nat.negb_odd.
  destruct c; simpl in Halt; try discriminate;
    apply andb_true_iff in Halt; destruct Halt as [Hb Hrest].
  - destruct b; [| discriminate]. simpl app. simpl alternates at 1.
    rewrite (IH false f Hrest).
    now destruct (Nat.odd (length cs)).
  - destruct b; [discriminate |]. simpl app. simpl alternates at 1.
    rewrite (IH true f Hrest).
    now destruct (Nat.odd (length cs)).
Qed.

Section PushToTalkLog.
Context {M : Type} `{recording_manager M}.
Import PushToTalkListener.

Lemma handle_push_to_talk_consistent (st : outcome (spy M))
    (ev : key_event) :
  push_to_talk_consistent st -> push_to_talk_consistent (handle st ev).
Proof.
  intros Hst. pose proof Hst as [Halt [Hact Htones]].
  assert (Hnext : forall f,
            Nat.odd (length (calls (manager st))) = negb (
              match f with Start => true | _ => false end) ->
            f <> Toggle ->
            alternates true (calls (manager st) ++ [f]) = true /\
            negb (Nat.odd (length (calls (manager st))))
            = Nat.odd (length (calls (manager st) ++ [f])) /\
            tones st ++ [tone_of_call f]
            = map tone_of_call (calls (manager st) ++ [f])).
  { intros f Hodd Hf.
    rewrite alternates_snoc by assumption.
    rewrite length_app, map_app, Nat.add_1_r, Nat.odd_succ,
      <- Nat.negb_odd, Htones, Hodd.
    destruct f; try contradiction; repeat split. }
  assert (Hsame : forall l,
            active l = active (listener st) ->
            push_to_talk_consistent
              {| listener := l; manager := manager st; tones := tones st |}).
  { intros l Hl. unfold push_to_talk_consistent. simpl.
    rewrite Hl. auto. }
  destruct ev as [k time | k]; simpl handle.
  - unfold on_key_press. cbn zeta.
    destruct (key_eqb k (key (listener st))); [| exact Hst].
    destruct (active (listener st)) eqn:Ha; simpl;
      [now apply Hsame |].
    destruct (quick time (last_press_time (listener st))); simpl;
      [| now apply Hsame].
    destruct (Hnext Start) as [H1 [H2 H3]];
      [now rewrite <- Hact | discriminate |].
    unfold push_to_talk_consistent. simpl.
    rewrite <- H2, <- Hact. auto.
  - unfold on_key_release. cbn zeta.
    destruct (key_eqb k (key (listener st))); [| exact Hst].
    destruct (active (listener st)) eqn:Ha; simpl; [| exact Hst].
    destruct (Hnext Stop) as [H1 [H2 H3]];
      [now rewrite <- Hact | discriminate |].
    unfold push_to_talk_consistent. simpl.
    rewrite <- H2, <- Hact. auto.
Qed.

(** X14.  Whatever key events arrive, the push-to-talk listener calls
    [start()] and [stop()] in strict alternation, beginning with
    [start()]: never two starts without a stop between them, never a stop
    without a start before it.  It is active exactly while the last call
    was a start, and it has played the 300 Hz tone with every start and
    the 600 Hz tone with every stop. *)
Theorem push_to_talk_alternates (events : list key_event) (m : M) :
  let final := listen events {| listener := new;
                                manager := {| inner := m; calls := [] |};
                                tones := [] |} in
  alternates true (calls (manager final)) = true /\
  active (listener final) = Nat.odd (length (calls (manager final))) /\
  tones final = map tone_of_call (calls (manager final)).
Proof.
  cbn zeta.
  assert (Hgen : forall st, push_to_talk_consistent st -> push_to_talk_consistent (listen events st)).
  { induction events as [| ev events IH]; intros st Hst; [exact Hst |].
    unfold listen in *. simpl. apply IH. now apply handle_push_to_talk_consistent. }
  apply Hgen. now repeat split.
Qed.

End PushToTalkLog.

(** ** Events the tap listeners do not look at *)

Section OtherKeys.
Context {M : Type} `{recording_manager M}.

Lemma double_tap_key_kept (st : DoubleCommandKeyListener.t * M)
    (ev : key_event) :
  DoubleCommandKeyListener.key (fst (DoubleCommandKeyListener.handle st ev))
  = DoubleCommandKeyListener.key (fst st).
Proof.
  destruct st as [self m]. destruct ev as [k time | k]; simpl;
    [| reflexivity].
  unfold DoubleCommandKeyListener.on_key_press.
  now destruct (key_eqb k (DoubleCommandKeyListener.key self)).
Qed.

Lemma push_to_talk_key_kept (st : PushToTalkListener.outcome M)
    (ev : key_event) :
  PushToTalkListener.key
    (PushToTalkListener.listener (PushToTalkListener.handle st ev))
  = PushToTalkListener.key (PushToTalkListener.listener st).
Proof.
  destruct ev as [k time | k]; simpl.
  - unfold PushToTalkListener.on_key_press. cbn zeta.
    destruct (key_eqb k _); [| reflexivity].
    now destruct (negb _ && _).
  - unfold PushToTalkListener.on_key_release. cbn zeta.
    now destruct (key_eqb k _ && _).
Qed.

(** X16.  The double-tap listener only looks at presses of its key:
    releases and all events of other keys can be removed from any event
    sequence without changing the listener or the manager.  The
    push-to-talk listener only looks at events of its key. *)
Theorem tap_listeners_ignore_other_keys (events : list key_event) :
  (forall st : DoubleCommandKeyListener.t * M,
     DoubleCommandKeyListener.listen events st
     = DoubleCommandKeyListener.listen
         (filter (is_press_of (DoubleCommandKeyListener.key (fst st))) events)
         st) /\
  (forall st : PushToTalkListener.outcome M,
     PushToTalkListener.listen events st
     = PushToTalkListener.listen
         (filter (fun ev =>
                    key_eqb (event_key ev)
                      (PushToTalkListener.key
                         (PushToTalkListener.listener st)))
            events)
         st).
Proof.
  split.
  - induction events as [| ev events IH]; intros st; [reflexivity |].
    unfold DoubleCommandKeyListener.listen in *. simpl.
    destruct (is_press_of (DoubleCommandKeyListener.key (fst st)) ev)
      eqn:Hev.
    + simpl. rewrite IH. now rewrite double_tap_key_kept.
    + assert (Hsame : DoubleCommandKeyListener.handle st ev = st).
      { destruct st as [self m]. destruct ev as [k time | k]; simpl in *;
          [| reflexivity].
        unfold DoubleCommandKeyListener.on_key_press. now rewrite Hev. }
      rewrite Hsame. apply IH.
  - induction events as [| ev events IH]; intros st; [reflexivity |].
    unfold PushToTalkListener.listen in *. simpl.
    destruct (key_eqb (event_key ev)
                (PushToTalkListener.key (PushToTalkListener.listener st)))
      eqn:Hev.
    + simpl. rewrite IH. now rewrite push_to_talk_key_kept.
    + assert (Hsame : PushToTalkListener.handle st ev = st).
      { destruct ev as [k time | k]; simpl in *.
        - unfold PushToTalkListener.on_key_press. cbn zeta.
          now rewrite Hev.
        - unfold PushToTalkListener.on_key_release. cbn zeta.
          now rewrite Hev. }
      rewrite Hsame. apply IH.
Qed.

End OtherKeys.
